(** * FSR-A of KCipher-2: alpha table and register update (k2fsr_a.c)

    A shallow embedding of the arithmetic of [k2fsr_a.c]:
    [parity8], [multi_GF], [make_coefficients], [make_alpha_table] and
    [update_fsr], followed by the properties established about them.

    Conventions.
    - A [uint32_t] is a [Z] in [0, 2^32); every operation that can leave
      that range in C ([<<]) is followed by an explicit reduction.
    - A C array is a [list Z]; a read outside the list is undefined in C
      and is [None] here, so every function touching an array lives in
      the [option] monad; a write outside the list is [None] as well.
    - A counted [for] loop is a structural recursion on the number of
      remaining iterations. *)

From Stdlib Require Import ZArith Lia Bool List.
From stdpp Require Import base option list.

Local Open Scope Z_scope.

(** ** Constants of the translation unit *)

Definition PICK1 : Z := 0x00000001.
Definition PICK8 : Z := 0x00000100.
Definition BETA_GF : Z := 0x000001C3.

Definition ALPHA_SIZE : nat := 4.
Definition TABLE_SIZE : nat := 256.
Definition GF_INDEX : Z := 8.
Definition FSR_A_SIZE : nat := 5.
Definition LOOP_A : nat := 64.

Definition beta_index : list Z := [71; 12; 3; 24].

(** ** 32-bit words *)

Module U32.

Definition modulus : Z := 2 ^ 32.

(** Conversion to [uint32_t]. *)
Definition wrap (x : Z) : Z := x mod modulus.

(** [(int)x] for a [uint32_t] value [x] on a two's complement target. *)
Definition to_int (x : Z) : Z :=
  if x <? 2 ^ 31 then x else x - modulus.

(** [x << n] on [uint32_t]: bits moved past bit 31 are lost. *)
Definition shl (x n : Z) : Z := wrap (Z.shiftl x n).

(** [x >> n] on [uint32_t]. *)
Definition shr (x n : Z) : Z := Z.shiftr x n.

(** [!x]. *)
Definition lnot (x : Z) : Z := if x =? 0 then 1 else 0.

Definition in_range (x : Z) : Prop := 0 <= x < modulus.

End U32.

(** ** Arrays *)

(** [a[i]] as an rvalue is [a !! i]; [a[i] = v] is [store a i v]. *)
Definition store (a : list Z) (i : nat) (v : Z) : option (list Z) :=
  if decide (i < length a)%nat then Some (<[i := v]> a) else None.

(** ** Counted loops *)

(** [for (i = lo; i < lo + n; i++) body(i)] threading a state through a
    body that may fail. *)
Fixpoint for_up {St : Type} (n : nat) (i : nat)
    (body : nat -> St -> option St) (s : St) : option St :=
  match n with
  | O => Some s
  | S n' =>
      match body i s with
      | Some s' => for_up n' (S i) body s'
      | None => None
      end
  end.

(** ** parity8, parity32 *)

(** The parameter of [parity8] has no declared type, hence is an [int];
    the assignment [p = (x)] converts it to [uint32_t]. *)
Definition parity8 (x : Z) : Z :=
  let p := U32.wrap x in
  let p := Z.lxor p (U32.shr p 4) in
  let p := Z.lxor p (U32.shr p 2) in
  let p := Z.lxor p (U32.shr p 1) in
  Z.land p PICK1.

Definition parity32 (x : Z) : Z :=
  let p := x in
  let p := Z.lxor p (U32.shr p 16) in
  let p := Z.lxor p (U32.shr p 8) in
  let p := Z.lxor p (U32.shr p 4) in
  let p := Z.lxor p (U32.shr p 2) in
  let p := Z.lxor p (U32.shr p 1) in
  Z.land p PICK1.

(** ** multi_GF *)

(** First loop of [multi_GF]:
    [for (pos = 7; pos >= 0; pos--) if (num & (PICK1 << pos)) break;]
    with [k = pos + 1] candidates left; the result is the value of [pos]
    on exit, [-1] when no bit among the candidates is set. *)
Fixpoint scan_pos (num : Z) (k : nat) : Z :=
  match k with
  | O => -1
  | S k' =>
      if Z.land num (Z.shiftl PICK1 (Z.of_nat k')) =? 0
      then scan_pos num k'
      else Z.of_nat k'
  end.

(** One iteration of the second loop, at bit [i] of [num]. *)
Definition multi_GF_body (a num gf gf_idx : Z) (i : Z) (t : Z) : Z :=
  let t := Z.lxor (U32.shl t 1)
                  (if Z.land num (Z.shiftl PICK1 i) =? 0 then 0 else a) in
  if Z.land t (Z.shiftl PICK1 gf_idx) =? 0 then t else Z.lxor t gf.

(** Second loop: [for (i = pos; i >= 0; i--)], with [k = i + 1]. *)
Fixpoint multi_GF_loop (a num gf gf_idx : Z) (k : nat) (t : Z) : Z :=
  match k with
  | O => t
  | S k' =>
      multi_GF_loop a num gf gf_idx k'
        (multi_GF_body a num gf gf_idx (Z.of_nat k') t)
  end.

Definition multi_GF (a num gf gf_idx : Z) : Z :=
  let pos := scan_pos num 8 in
  multi_GF_loop a num gf gf_idx (Z.to_nat (pos + 1)) 0.

(** ** make_coefficients *)

(** Body of the inner loop of [make_coefficients] on the cell
    [multi[i]]. *)
Definition coefficient_body (gf : Z) (m : Z) : Z :=
  let m := U32.shl m 1 in
  if Z.land m PICK8 =? 0 then m
  else Z.lxor m (Z.lor gf (U32.lnot (parity8 (Z.lxor m gf)))).

(** The bound [(int)index[i]] is read from an array the body never
    writes, so the trip count is fixed on entry of the inner loop; a
    bound that is negative as an [int] gives no iteration. *)
Definition trip_count (e : Z) : nat := Z.to_nat (U32.to_int e).

(** The inner loop body as a step on the array: it rewrites [multi[i]]
    in place. *)
Definition make_coefficients_body (gf : Z) (i : nat) (multi : list Z)
    : option (list Z) :=
  m ← multi !! i;
  store multi i (coefficient_body gf m).

Definition make_coefficients (multi index : list Z) (gf : Z)
    : option (list Z) :=
  for_up ALPHA_SIZE 0
    (fun i multi =>
       e ← index !! i;
       for_up (trip_count e) 0 (fun _ => make_coefficients_body gf i) multi)
    multi.

(** ** make_alpha_table *)

(** Body of the inner loop, for the entry [i] and the lane [j]. *)
Definition alpha_table_body (multi : list Z) (gf : Z) (i j : nat)
    (alpha : list Z) : option (list Z) :=
  m ← multi !! j;
  let temp_u32 := multi_GF m (Z.of_nat i) gf GF_INDEX in
  old ← alpha !! i;
  store alpha i (Z.lor old (U32.shl temp_u32 (Z.of_nat j * 8))).

Definition make_alpha_table (alpha multi : list Z) (gf : Z)
    : option (list Z) :=
  for_up TABLE_SIZE 0
    (fun i alpha => for_up ALPHA_SIZE 0 (alpha_table_body multi gf i) alpha)
    alpha.

(** What the four iterations of the inner loop OR into [alpha[i]]:
    lane [j] is [multi_GF(multi[j], i, gf, GF_INDEX) << (j * 8)]. *)
Definition alpha_lane (multi : list Z) (gf : Z) (i j : nat) : Z :=
  U32.shl (multi_GF (default 0 (multi !! j)) (Z.of_nat i) gf GF_INDEX)
          (Z.of_nat j * 8).

Definition alpha_cell (multi : list Z) (gf : Z) (i : nat) (old : Z) : Z :=
  Z.lor (Z.lor (Z.lor (Z.lor old (alpha_lane multi gf i 0))
                      (alpha_lane multi gf i 1))
               (alpha_lane multi gf i 2))
        (alpha_lane multi gf i 3).

(** ** update_fsr *)

Definition update_fsr (fsr alpha : list Z) : option (list Z) :=
  f0 ← fsr !! 0%nat;
  a ← alpha !! Z.to_nat (U32.shr f0 24);
  f3 ← fsr !! 3%nat;
  let fb := Z.lxor (Z.lxor (U32.shl f0 8) a) f3 in
  f1 ← fsr !! 1%nat;
  fsr ← store fsr 0 f1;
  f2 ← fsr !! 2%nat;
  fsr ← store fsr 1 f2;
  f3 ← fsr !! 3%nat;
  fsr ← store fsr 2 f3;
  f4 ← fsr !! 4%nat;
  fsr ← store fsr 3 f4;
  store fsr 4 fb.

(** ** The set-up performed by main *)

Definition beta_multi_init : list Z := [1; 1; 1; 1].
Definition alpha_0_init : list Z := replicate TABLE_SIZE 0.
Definition fsr_a_init : list Z :=
  [0xBE3CA984; 0x974E6719; 0x86916EFF; 0xF52DACF9; 0x960329B5].

Definition main_tables : option (list Z * list Z) :=
  beta_multi ← make_coefficients beta_multi_init beta_index BETA_GF;
  alpha_0 ← make_alpha_table alpha_0_init beta_multi BETA_GF;
  Some (beta_multi, alpha_0).

Definition main_run (loop : nat) : option (list Z) :=
  '(_, alpha_0) ← main_tables;
  for_up loop 0 (fun _ fsr => update_fsr fsr alpha_0) fsr_a_init.

(** ** The data model *)

(** A modulus of the field: bit 8 set and nothing above it. *)
Definition field_modulus (gf : Z) : Prop :=
  0 <= gf < 2 ^ 9 /\ Z.testbit gf 8 = true.

(** A field element. *)
Definition field_element (x : Z) : Prop := 0 <= x < 256.

(** ** Reference definitions taken from the specification *)

(** XOR-fold of the [n] low bits of [x]. *)
Fixpoint xor_fold_bits (x : Z) (n : nat) : bool :=
  match n with
  | O => false
  | S n' => xorb (xor_fold_bits x n') (Z.testbit x (Z.of_nat n'))
  end.

(** Number of set bits among the [n] low bits of [x]. *)
Fixpoint count_set_bits (x : Z) (n : nat) : nat :=
  match n with
  | O => O
  | S n' => (count_set_bits x n' + if Z.testbit x (Z.of_nat n') then 1 else 0)%nat
  end.

(** [parity(x)]: the XOR-fold of all the bits of the word [x]. *)
Definition parity (x : Z) : Z := Z.b2z (xor_fold_bits x 32).

(** One doubling of the coefficient builder: shift the accumulator left
    by one bit and, if bit 8 became set, XOR it with
    [modulus OR (1 if parity(accumulator XOR modulus) == 0 else 0)]. *)
Definition doubling (modulus acc : Z) : Z :=
  let acc := Z.shiftl acc 1 in
  if Z.testbit acc 8
  then Z.lxor acc
         (Z.lor modulus (if parity (Z.lxor acc modulus) =? 0 then 1 else 0))
  else acc.

(** The field element built for the exponent [e]: the accumulator
    starts at 1 and is doubled [e] times. *)
Definition coefficient (modulus : Z) (e : nat) : Z :=
  Nat.iter e (doubling modulus) 1.

(** The OR over [j] of [multiply(multipliers[j], i)] shifted left by
    [8 * j] bits. *)
Definition packed_entry (multipliers : list Z) (modulus : Z) (i : Z) : Z :=
  foldr Z.lor 0
    (imap (fun j m => Z.shiftl (multi_GF m i modulus GF_INDEX)
                               (8 * Z.of_nat j))
          multipliers).

(** Four values packed into the byte lanes 0 to 3 of a word. *)
Definition pack_lanes (p0 p1 p2 p3 : Z) : Z :=
  Z.lor (Z.shiftl p0 (8 * Z.of_nat 0))
    (Z.lor (Z.shiftl p1 (8 * Z.of_nat 1))
       (Z.lor (Z.shiftl p2 (8 * Z.of_nat 2))
          (Z.lor (Z.shiftl p3 (8 * Z.of_nat 3)) 0))).

(** Byte lane [j] of a 32-bit word. *)
Definition byte_lane (j : nat) (w : Z) : Z :=
  Z.land (Z.shiftr w (8 * Z.of_nat j)) 0xFF.

(** The multiplication loop run over all eight bits of [num], from bit 7
    down to bit 0, whatever the position of its highest set bit. *)
Definition multi_GF_all_bits (a num gf gf_idx : Z) : Z :=
  multi_GF_loop a num gf gf_idx 8 0.

(** ** Exhaustive checks over an initial segment of [Z] *)

(** [all_below n p] holds when [p] holds of [0], ..., [n - 1]. *)
Fixpoint all_below (n : nat) (p : Z -> bool) : bool :=
  match n with
  | O => true
  | S n' => p (Z.of_nat n') && all_below n' p
  end.

(** [all_below2 n f] holds when [f] holds of every pair taken in
    [0], ..., [n - 1]. *)
Definition all_below2 (n : nat) (f : Z -> Z -> bool) : bool :=
  all_below n (fun a => all_below n (fun b => f a b)).

(** Commutation of [multi_GF] at one pair of operands, as a boolean. *)
Definition multi_GF_commutes_at (gf a b : Z) : bool :=
  multi_GF a b gf GF_INDEX =? multi_GF b a gf GF_INDEX.

(** [all_below3 n1 n2 n3 f] holds when [f] holds of every triple taken
    in the three initial segments, and likewise [all_below4]. *)
Definition all_below3 (n1 n2 n3 : nat) (f : Z -> Z -> Z -> bool) : bool :=
  all_below n1 (fun a => all_below n2 (fun b => all_below n3 (fun c => f a b c))).

Definition all_below4 (n1 n2 n3 n4 : nat) (f : Z -> Z -> Z -> Z -> bool)
    : bool :=
  all_below n1 (fun a => all_below3 n2 n3 n4 (f a)).

(** Commutation of [multi_GF] at the powers of two [(2^i, 2^j)] for the
    modulus [256 + g], as a boolean. *)
Definition multi_GF_comm_basis_at (g i j : Z) : bool :=
  multi_GF (2 ^ i) (2 ^ j) (256 + g) GF_INDEX =?
  multi_GF (2 ^ j) (2 ^ i) (256 + g) GF_INDEX.

(** Associativity of [multi_GF] at the powers of two [(2^i, 2^j, 2^k)]
    for the modulus [256 + g], as a boolean. *)
Definition multi_GF_assoc_basis_at (g i j k : Z) : bool :=
  multi_GF (multi_GF (2 ^ i) (2 ^ j) (256 + g) GF_INDEX) (2 ^ k)
           (256 + g) GF_INDEX =?
  multi_GF (2 ^ i) (multi_GF (2 ^ j) (2 ^ k) (256 + g) GF_INDEX)
           (256 + g) GF_INDEX.

(** A product is zero only if an operand is, as a boolean. *)
Definition multi_GF_regular_at (gf a b : Z) : bool :=
  negb (multi_GF a b gf GF_INDEX =? 0) || (a =? 0) || (b =? 0).

(** * Properties *)

(** ** Bit-level facts on [Z] *)

Section Bits.

Lemma testbit_high (x n m : Z) :
  0 <= x < 2 ^ n -> 0 <= n <= m -> Z.testbit x m = false.
Proof.
  intros Hx Hm.
  replace x with (x mod 2 ^ n) by (apply Z.mod_small; lia).
  now apply Z.mod_pow2_bits_high.
Qed.

Lemma below_pow2 (x n : Z) :
  0 <= n -> 0 <= x ->
  (forall m, n <= m -> Z.testbit x m = false) -> x < 2 ^ n.
Proof.
  intros Hn Hx Hbits.
  assert (E : x mod 2 ^ n = x).
  { apply Z.bits_inj'. intros m Hm.
    rewrite Z.testbit_mod_pow2 by lia.
    destruct (Z.ltb_spec m n); simpl; [reflexivity|].
    symmetry. apply Hbits. lia. }
  rewrite <- E. apply Z.mod_pos_bound. lia.
Qed.

Lemma lxor_range (x y n : Z) :
  0 <= n -> 0 <= x < 2 ^ n -> 0 <= y < 2 ^ n -> 0 <= Z.lxor x y < 2 ^ n.
Proof.
  intros Hn Hx Hy.
  assert (H0 : 0 <= Z.lxor x y) by (apply Z.lxor_nonneg; lia).
  split; [exact H0|].
  apply below_pow2; try lia. intros m Hm.
  rewrite Z.lxor_spec, (testbit_high x n m), (testbit_high y n m) by lia.
  reflexivity.
Qed.

Lemma lor_range (x y n : Z) :
  0 <= n -> 0 <= x < 2 ^ n -> 0 <= y < 2 ^ n -> 0 <= Z.lor x y < 2 ^ n.
Proof.
  intros Hn Hx Hy.
  assert (H0 : 0 <= Z.lor x y) by (apply Z.lor_nonneg; lia).
  split; [exact H0|].
  apply below_pow2; try lia. intros m Hm.
  rewrite Z.lor_spec, (testbit_high x n m), (testbit_high y n m) by lia.
  reflexivity.
Qed.

(** Two values below [2^(n+1)] with bit [n] set cancel that bit. *)
Lemma lxor_fold_top (x y n : Z) :
  0 <= n -> 0 <= x < 2 ^ (n + 1) -> 0 <= y < 2 ^ (n + 1) ->
  Z.testbit x n = true -> Z.testbit y n = true ->
  0 <= Z.lxor x y < 2 ^ n.
Proof.
  intros Hn Hx Hy Bx By.
  assert (H0 : 0 <= Z.lxor x y) by (apply Z.lxor_nonneg; lia).
  split; [exact H0|].
  apply below_pow2; try lia. intros m Hm.
  rewrite Z.lxor_spec.
  destruct (Z.eq_dec m n) as [->|Hne].
  - now rewrite Bx, By.
  - rewrite (testbit_high x (n + 1) m), (testbit_high y (n + 1) m) by lia.
    reflexivity.
Qed.

(** The test [x & (1 << n)] of the C code reads bit [n] of [x]. *)
Lemma land_bit_test (x n : Z) :
  0 <= n -> (Z.land x (Z.shiftl 1 n) =? 0) = negb (Z.testbit x n).
Proof.
  intros Hn. rewrite Z.shiftl_1_l.
  destruct (Z.testbit x n) eqn:B; simpl.
  - apply Z.eqb_neq. intros E.
    assert (Z.testbit (Z.land x (2 ^ n)) n = true)
      by (rewrite Z.land_spec, B, Z.pow2_bits_true; auto).
    rewrite E, Z.bits_0 in H. discriminate.
  - apply Z.eqb_eq, Z.bits_inj'. intros m Hm.
    rewrite Z.land_spec, Z.bits_0, Z.pow2_bits_eqb by lia.
    destruct (Z.eqb_spec n m) as [<-|]; [now rewrite B|apply andb_false_r].
Qed.

Lemma land_1 (x : Z) : Z.land x 1 = Z.b2z (Z.testbit x 0).
Proof.
  rewrite Z.bit0_mod. change 1 with (Z.ones 1) at 1.
  now rewrite Z.land_ones by lia.
Qed.

Lemma shl_small (x n k : Z) :
  0 <= n -> 0 <= k -> n + k <= 32 -> 0 <= x < 2 ^ k ->
  U32.shl x n = x * 2 ^ n.
Proof.
  intros Hn Hk Hnk Hx. unfold U32.shl, U32.wrap, U32.modulus.
  rewrite Z.shiftl_mul_pow2 by lia.
  apply Z.mod_small.
  assert (0 < 2 ^ n) by (apply Z.pow_pos_nonneg; lia).
  assert (2 ^ k * 2 ^ n <= 2 ^ 32).
  { rewrite <- Z.pow_add_r by lia. apply Z.pow_le_mono_r; lia. }
  nia.
Qed.

Lemma wrap_range (x : Z) : U32.in_range (U32.wrap x).
Proof. apply Z.mod_pos_bound. reflexivity. Qed.

Lemma wrap_small (x : Z) : U32.in_range x -> U32.wrap x = x.
Proof. apply Z.mod_small. Qed.

End Bits.

(** ** parity8 *)

Section Parity.

Lemma xor_fold_bits_stable (x : Z) (n k : nat) :
  0 <= x < 2 ^ Z.of_nat n ->
  xor_fold_bits x (n + k) = xor_fold_bits x n.
Proof.
  intros Hx. induction k as [|k IH].
  - now rewrite Nat.add_0_r.
  - rewrite Nat.add_succ_r. simpl.
    rewrite IH, (testbit_high x (Z.of_nat n)) by lia.
    apply xorb_false_r.
Qed.

Lemma xor_fold_bits_odd (x : Z) (n : nat) :
  xor_fold_bits x n = Nat.odd (count_set_bits x n).
Proof.
  induction n as [|n IH]; [reflexivity|].
  simpl. rewrite IH, Nat.odd_add.
  now destruct (Z.testbit x (Z.of_nat n)).
Qed.

(** Whatever its argument, [parity8] folds the eight low bits of the
    converted value and nothing else. *)
Lemma parity8_low_bits (x : Z) :
  parity8 x = Z.b2z (xor_fold_bits (U32.wrap x) 8).
Proof.
  unfold parity8, U32.shr, PICK1.
  generalize (U32.wrap x). intros p.
  rewrite land_1. f_equal.
  rewrite !Z.lxor_spec, !Z.shiftr_spec by lia.
  rewrite !Z.lxor_spec, !Z.shiftr_spec by lia.
  rewrite !Z.lxor_spec, !Z.shiftr_spec by lia.
  cbv [xor_fold_bits Z.of_nat Pos.of_succ_nat Pos.succ Z.add Pos.add].
  repeat match goal with
         | |- context [Z.testbit p ?i] => destruct (Z.testbit p i)
         end; reflexivity.
Qed.

Lemma parity8_bit (x : Z) : parity8 x = 0 \/ parity8 x = 1.
Proof.
  rewrite parity8_low_bits.
  destruct (xor_fold_bits _ _); [right|left]; reflexivity.
Qed.

(** On an 8-bit value the eight bits folded are all the bits of the
    word. *)
Lemma parity8_field_element (x : Z) :
  0 <= x < 256 -> parity8 x = Z.b2z (xor_fold_bits x 32).
Proof.
  intros Hx.
  rewrite parity8_low_bits, wrap_small
    by (unfold U32.in_range, U32.modulus; lia).
  change 32%nat with (8 + 24)%nat.
  now rewrite xor_fold_bits_stable by (change (2 ^ Z.of_nat 8) with 256; lia).
Qed.

End Parity.

(** C10: on its domain, the 8-bit values, [parity8] returns the XOR-fold
    of all the bits of its argument, that is 1 when the argument has an
    odd number of set bits and 0 otherwise.  "All bits" is taken at any
    width [n] of at least eight bits, 32 included. *)
Theorem parity8_xor_fold (x : Z) (n : nat) :
  0 <= x < 256 -> (8 <= n)%nat ->
  parity8 x = Z.b2z (xor_fold_bits x n) /\
  parity8 x = (if Nat.odd (count_set_bits x n) then 1 else 0).
Proof.
  intros Hx Hn.
  assert (E : parity8 x = Z.b2z (xor_fold_bits x n)).
  { rewrite parity8_low_bits, wrap_small by (unfold U32.in_range, U32.modulus; lia).
    replace n with (8 + (n - 8))%nat by lia.
    now rewrite xor_fold_bits_stable by (change (2 ^ Z.of_nat 8) with 256; lia). }
  split; [exact E|].
  rewrite E, xor_fold_bits_odd. now destruct (Nat.odd _).
Qed.

Lemma parity8_xor_fold_witness :
  parity8 0xB5 = Z.b2z (xor_fold_bits 0xB5 32) /\
  parity8 0xB5 = (if Nat.odd (count_set_bits 0xB5 32) then 1 else 0).
Proof. apply (parity8_xor_fold 0xB5 32); lia. Defined.

(** ** multi_GF *)

Section MultiGF.

Variables a num gf gf_idx : Z.

(** While the accumulator is still zero, a clear bit of [num] leaves
    it at zero. *)
Lemma multi_GF_body_clear (i : Z) :
  (Z.land num (Z.shiftl PICK1 i) =? 0) = true ->
  multi_GF_body a num gf gf_idx i 0 = 0.
Proof. intros H. unfold multi_GF_body. rewrite H. reflexivity. Qed.

Lemma multi_GF_loop_skip (k : nat) :
  multi_GF_loop a num gf gf_idx k 0 =
  multi_GF_loop a num gf gf_idx (Z.to_nat (scan_pos num k + 1)) 0.
Proof.
  induction k as [|k IH]; [reflexivity|].
  cbn [scan_pos].
  destruct (Z.land num (Z.shiftl PICK1 (Z.of_nat k)) =? 0) eqn:B.
  - cbn [multi_GF_loop]. now rewrite multi_GF_body_clear.
  - f_equal. lia.
Qed.

Lemma scan_pos_range (k : nat) : -1 <= scan_pos num k < Z.of_nat k.
Proof.
  induction k as [|k IH]; cbn [scan_pos]; [lia|].
  destruct (_ =? 0); lia.
Qed.

Lemma multi_GF_zero : num = 0 -> multi_GF a num gf gf_idx = 0.
Proof. intros ->. reflexivity. Qed.

End MultiGF.

Lemma testbit_top (x n : Z) :
  0 <= n -> 2 ^ n <= x < 2 ^ (n + 1) -> Z.testbit x n = true.
Proof.
  intros Hn Hx. apply Z.testbit_true; [exact Hn|].
  rewrite Z.pow_add_r in Hx by lia. change (2 ^ 1) with 2 in Hx.
  assert (x / 2 ^ n = 1); [|now replace (x / 2 ^ n) with 1].
  assert (0 < 2 ^ n) by (apply Z.pow_pos_nonneg; lia).
  symmetry. apply Z.div_unique with (r := x - 2 ^ n); lia.
Qed.

Lemma field_modulus_range (gf : Z) : field_modulus gf <-> 256 <= gf < 512.
Proof.
  unfold field_modulus. change (2 ^ 9) with 512. split.
  - intros [Hr Hb]. split; [|lia].
    destruct (Z.lt_ge_cases gf 256) as [Hlt|]; [|assumption].
    rewrite (testbit_high gf 8 8) in Hb by (change (2 ^ 8) with 256; lia).
    discriminate.
  - intros Hr. split; [lia|]. apply testbit_top; [lia|exact Hr].
Qed.

Lemma field_modulus_BETA_GF : field_modulus BETA_GF.
Proof. apply field_modulus_range. unfold BETA_GF. lia. Qed.

Section Closure.

Variable gf : Z.
Hypothesis Hgf : field_modulus gf.

(** A value below [2^9] is folded below [2^8] by the conditional XOR
    with the modulus. *)
Lemma fold_modulus (t g : Z) :
  0 <= t < 2 ^ 9 -> field_modulus g ->
  0 <= (if Z.land t (Z.shiftl PICK1 GF_INDEX) =? 0 then t else Z.lxor t g)
    < 256.
Proof.
  intros Ht [Hg Bg]. unfold PICK1, GF_INDEX.
  rewrite land_bit_test by lia.
  destruct (Z.testbit t 8) eqn:B; simpl.
  - apply (lxor_fold_top t g 8); auto; lia.
  - split; [lia|]. apply (below_pow2 t 8); try lia.
    intros m Hm. destruct (Z.eq_dec m 8) as [->|]; [exact B|].
    apply (testbit_high t 9); lia.
Qed.

Lemma multi_GF_body_closed (a num i t : Z) :
  field_element a -> field_element t ->
  field_element (multi_GF_body a num gf GF_INDEX i t).
Proof.
  unfold field_element. intros Ha Ht. unfold multi_GF_body.
  apply fold_modulus; [|exact Hgf].
  apply lxor_range; [lia| |].
  - rewrite (shl_small t 1 8) by (change (2 ^ 8) with 256; lia).
    change (2 ^ 1) with 2. change (2 ^ 9) with 512. lia.
  - change (2 ^ 9) with 512. destruct (_ =? 0); lia.
Qed.

Lemma multi_GF_loop_closed (a num : Z) (k : nat) (t : Z) :
  field_element a -> field_element t ->
  field_element (multi_GF_loop a num gf GF_INDEX k t).
Proof.
  intros Ha. revert t.
  induction k as [|k IH]; intros t Ht; cbn [multi_GF_loop]; [exact Ht|].
  apply IH. now apply multi_GF_body_closed.
Qed.

Lemma multi_GF_closed (a num : Z) :
  field_element a -> field_element (multi_GF a num gf GF_INDEX).
Proof.
  intros Ha. unfold multi_GF.
  apply multi_GF_loop_closed; [exact Ha|]. unfold field_element. lia.
Qed.

End Closure.

Lemma all_below_spec (n : nat) (p : Z -> bool) :
  all_below n p = true -> forall x, 0 <= x < Z.of_nat n -> p x = true.
Proof.
  induction n as [|n IH]; cbn [all_below]; intros H x Hx; [lia|].
  apply andb_true_iff in H as [H0 H1].
  destruct (Z.eq_dec x (Z.of_nat n)) as [->|Hne]; [exact H0|].
  apply IH; [exact H1|lia].
Qed.

Lemma all_below2_spec (n : nat) (f : Z -> Z -> bool) :
  all_below2 n f = true ->
  forall a b, 0 <= a < Z.of_nat n -> 0 <= b < Z.of_nat n -> f a b = true.
Proof.
  unfold all_below2. intros H a b Ha Hb.
  pose proof (all_below_spec n _ H a Ha) as H1. cbv beta in H1.
  exact (all_below_spec n _ H1 b Hb).
Qed.

(** All 65536 products, evaluated. *)
Lemma multi_GF_commutes_BETA_GF :
  all_below2 256 (multi_GF_commutes_at BETA_GF) = true.
Proof. vm_compute. reflexivity. Qed.

(** C5: with the modulus [BETA_GF] and reduction bit 8, zero annihilates
    and one is a right identity: [multi_GF a 0 = 0] and
    [multi_GF a 1 = a] for every [a] in [0, 256). *)
Theorem multi_GF_zero_one (a : Z) :
  0 <= a < 256 ->
  multi_GF a 0 BETA_GF GF_INDEX = 0 /\ multi_GF a 1 BETA_GF GF_INDEX = a.
Proof.
  intros Ha. split; [now apply multi_GF_zero|].
  unfold multi_GF. change (scan_pos 1 8) with 0.
  change (Z.to_nat (0 + 1)) with 1%nat.
  cbn [multi_GF_loop]. unfold multi_GF_body.
  change (Z.land 1 (Z.shiftl PICK1 (Z.of_nat 0)) =? 0) with false.
  change (U32.shl 0 1) with 0. rewrite Z.lxor_0_l.
  unfold PICK1, GF_INDEX. rewrite land_bit_test by lia.
  now rewrite (testbit_high a 8 8) by (change (2 ^ 8) with 256; lia).
Qed.

Lemma multi_GF_zero_one_witness :
  multi_GF 0x53 0 BETA_GF GF_INDEX = 0 /\
  multi_GF 0x53 1 BETA_GF GF_INDEX = 0x53.
Proof. apply (multi_GF_zero_one 0x53). lia. Defined.

(** C6: with the modulus [BETA_GF] and reduction bit 8, [multi_GF] is
    commutative on [0, 256). *)
Theorem multi_GF_comm (a b : Z) :
  0 <= a < 256 -> 0 <= b < 256 ->
  multi_GF a b BETA_GF GF_INDEX = multi_GF b a BETA_GF GF_INDEX.
Proof.
  intros Ha Hb. apply Z.eqb_eq.
  exact (all_below2_spec 256 (multi_GF_commutes_at BETA_GF)
           multi_GF_commutes_BETA_GF a b Ha Hb).
Qed.

Lemma multi_GF_comm_witness :
  multi_GF 0x57 0x83 BETA_GF GF_INDEX = multi_GF 0x83 0x57 BETA_GF GF_INDEX.
Proof. apply (multi_GF_comm 0x57 0x83); lia. Defined.

(** C7: the leading zero bits of the second operand are inert: for all
    [a], [b] in [0, 256) the loop started at the highest set bit of [b]
    returns what the loop over all eight bits, from bit 7 down to bit 0,
    returns.  The modulus is arbitrary. *)
Theorem multi_GF_leading_zeros_inert (a b gf : Z) :
  0 <= a < 256 -> 0 <= b < 256 ->
  multi_GF a b gf GF_INDEX = multi_GF_all_bits a b gf GF_INDEX.
Proof.
  intros _ _. unfold multi_GF, multi_GF_all_bits.
  symmetry. apply multi_GF_loop_skip.
Qed.

Lemma multi_GF_leading_zeros_inert_witness :
  multi_GF 0xCA 0x05 BETA_GF GF_INDEX =
  multi_GF_all_bits 0xCA 0x05 BETA_GF GF_INDEX.
Proof. apply (multi_GF_leading_zeros_inert 0xCA 0x05 BETA_GF); lia. Defined.

(** ** Arrays and loops *)

Section Arrays.

Lemma store_Some (a : list Z) (i : nat) (v : Z) :
  (i < length a)%nat -> store a i v = Some (<[i := v]> a).
Proof. intros H. unfold store. now rewrite decide_True. Qed.

Lemma store_None (a : list Z) (i : nat) (v : Z) :
  (length a <= i)%nat -> store a i v = None.
Proof. intros H. unfold store. rewrite decide_False; [reflexivity|lia]. Qed.

Lemma store_length (a a' : list Z) (i : nat) (v : Z) :
  store a i v = Some a' -> length a' = length a.
Proof.
  unfold store. case_decide; [|discriminate].
  intros [= <-]. apply length_insert.
Qed.

Lemma shr_24_range (x : Z) : U32.in_range x -> 0 <= U32.shr x 24 < 256.
Proof.
  unfold U32.in_range, U32.modulus, U32.shr. intros Hx.
  rewrite Z.shiftr_div_pow2 by lia. split.
  - apply Z.div_pos; lia.
  - apply Z.div_lt_upper_bound; lia.
Qed.

End Arrays.

(** ** update_fsr *)

(** C1: for every state [A, B, C, D, E] of 32-bit words and every table
    of 256 entries, one call of [update_fsr] succeeds and leaves the
    state [B, C, D, E, F] with
    [F = ((A << 8) mod 2^32) XOR table[A >> 24] XOR D]; the four other
    words are the old words 1 to 4, moved down by one place. *)
Theorem update_fsr_step (A B C D E : Z) (alpha : list Z) :
  U32.in_range A -> U32.in_range B -> U32.in_range C ->
  U32.in_range D -> U32.in_range E ->
  length alpha = TABLE_SIZE ->
  exists entry,
    alpha !! Z.to_nat (Z.shiftr A 24) = Some entry /\
    update_fsr [A; B; C; D; E] alpha =
      Some [B; C; D; E;
            Z.lxor (Z.lxor (Z.shiftl A 8 mod 2 ^ 32) entry) D].
Proof.
  intros HA _ _ _ _ Hlen.
  destruct (lookup_lt_is_Some_2 alpha (Z.to_nat (Z.shiftr A 24))) as [entry He].
  { rewrite Hlen. unfold TABLE_SIZE. pose proof (shr_24_range A HA) as H.
    unfold U32.shr in H. lia. }
  exists entry. split; [exact He|].
  unfold update_fsr. cbn [lookup list_lookup mbind option_bind].
  unfold U32.shr at 1. rewrite He. cbn [mbind option_bind].
  repeat (rewrite store_Some by (cbn; lia); cbn).
  reflexivity.
Qed.

Lemma update_fsr_step_witness :
  exists entry,
    alpha_0_init !! Z.to_nat (Z.shiftr 0xBE3CA984 24) = Some entry /\
    update_fsr [0xBE3CA984; 0x974E6719; 0x86916EFF; 0xF52DACF9; 0x960329B5]
               alpha_0_init =
      Some [0x974E6719; 0x86916EFF; 0xF52DACF9; 0x960329B5;
            Z.lxor (Z.lxor (Z.shiftl 0xBE3CA984 8 mod 2 ^ 32) entry)
                   0xF52DACF9].
Proof.
  apply update_fsr_step; unfold U32.in_range, U32.modulus; try lia.
  reflexivity.
Defined.

(** ** Loops over the cells of an array *)

Section Loops.

(** A loop whose iteration [i] rewrites cell [i] from its old contents
    visits the cells [i0], ..., [i0 + n - 1] once each and leaves the
    others alone. *)
Lemma for_up_cells (g : nat -> Z -> Z)
    (body : nat -> list Z -> option (list Z)) (bound : nat) :
  (forall i s old, (i < bound)%nat -> s !! i = Some old ->
                   body i s = Some (<[i := g i old]> s)) ->
  forall n i0 s, (i0 + n <= bound)%nat -> (bound <= length s)%nat ->
  exists s',
    for_up n i0 body s = Some s' /\ length s' = length s /\
    forall k, s' !! k =
              if decide (i0 <= k < i0 + n)%nat then g k <$> s !! k
              else s !! k.
Proof.
  intros Hbody n. induction n as [|n IH]; intros i0 s Hn Hlen.
  - exists s. repeat split. intros k. rewrite decide_False; [reflexivity|lia].
  - destruct (lookup_lt_is_Some_2 s i0) as [old Hold]; [lia|].
    cbn [for_up]. rewrite (Hbody i0 s old) by (lia || assumption).
    destruct (IH (S i0) (<[i0 := g i0 old]> s)) as (s' & Hrun & Hl & Hk).
    { lia. } { rewrite length_insert. lia. }
    exists s'. split; [exact Hrun|]. split.
    { now rewrite Hl, length_insert. }
    intros k. rewrite Hk.
    destruct (Nat.eq_dec k i0) as [->|Hne].
    + rewrite decide_False, decide_True by lia.
      rewrite list_lookup_insert_eq, Hold by lia. reflexivity.
    + rewrite list_lookup_insert_ne by lia.
      destruct (decide (S i0 <= k < S i0 + n)%nat).
      * rewrite decide_True by lia. reflexivity.
      * rewrite decide_False by lia. reflexivity.
Qed.

(** A loop that rewrites the same cell [i] at every iteration applies
    its update [n] times to that cell. *)
Lemma for_up_one_cell (f : Z -> Z) (i : nat) (n j0 : nat)
    (s : list Z) (old : Z) :
  s !! i = Some old ->
  for_up n j0 (fun _ s => m ← s !! i; store s i (f m)) s =
  Some (<[i := Nat.iter n f old]> s).
Proof.
  revert j0 s old. induction n as [|n IH]; intros j0 s old Hold.
  - cbn. now rewrite list_insert_id.
  - pose proof (lookup_lt_Some _ _ _ Hold) as Hlt.
    cbn [for_up]. rewrite Hold. cbn [mbind option_bind].
    rewrite store_Some by exact Hlt.
    rewrite (IH _ _ (f old)) by now apply list_lookup_insert_eq.
    rewrite list_insert_insert_eq. f_equal. f_equal.
    symmetry. apply Nat.iter_succ_r.
Qed.

End Loops.

(** ** make_coefficients *)

Section Coefficients.

Variable gf : Z.

(** [n] runs of the inner loop apply the loop body [n] times to the
    cell [i]. *)
Lemma inner_loop_runs (i n : nat) (multi : list Z) (m : Z) :
  multi !! i = Some m ->
  for_up n 0 (fun _ => make_coefficients_body gf i) multi =
  Some (<[i := Nat.iter n (coefficient_body gf) m]> multi).
Proof.
  intros Hm. unfold make_coefficients_body.
  now apply (for_up_one_cell (coefficient_body gf)).
Qed.

(** The builder has no failure path of its own: whatever the bounds,
    it returns, and cell [k < 4] has gone through [trip_count] runs of
    the loop body. *)
Lemma make_coefficients_cells (multi index : list Z) :
  (ALPHA_SIZE <= length multi)%nat -> (ALPHA_SIZE <= length index)%nat ->
  exists r,
    make_coefficients multi index gf = Some r /\ length r = length multi /\
    forall k, r !! k =
      if decide (k < ALPHA_SIZE)%nat
      then (fun m => Nat.iter (trip_count (default 0 (index !! k)))
                       (coefficient_body gf) m) <$> multi !! k
      else multi !! k.
Proof.
  intros Hm Hi. unfold make_coefficients.
  destruct (for_up_cells
    (fun k m => Nat.iter (trip_count (default 0 (index !! k)))
                  (coefficient_body gf) m)
    (fun i multi =>
       e ← index !! i;
       for_up (trip_count e) 0 (fun _ => make_coefficients_body gf i) multi)
    ALPHA_SIZE) with (n := ALPHA_SIZE) (i0 := 0%nat) (s := multi)
    as (r & Hrun & Hlen & Hk); try lia.
  - intros i s old Hlt Hold.
    destruct (lookup_lt_is_Some_2 index i) as [e He]; [lia|].
    rewrite He. cbn [mbind option_bind default].
    now apply inner_loop_runs.
  - exists r. split; [exact Hrun|]. split; [exact Hlen|].
    intros k. rewrite Hk.
    destruct (decide (k < ALPHA_SIZE)%nat).
    + rewrite decide_True by lia. reflexivity.
    + rewrite decide_False by lia. reflexivity.
Qed.

Hypothesis Hgf : field_modulus gf.

Lemma lnot_bit (x : Z) : U32.lnot x = 0 \/ U32.lnot x = 1.
Proof. unfold U32.lnot. destruct (x =? 0); auto. Qed.

Lemma field_modulus_lor_bit (b : Z) :
  b = 0 \/ b = 1 -> field_modulus (Z.lor gf b).
Proof.
  destruct Hgf as [Hr Hb]. intros Hbit. split.
  - apply lor_range; [lia|exact Hr|].
    change (2 ^ 9) with 512. lia.
  - rewrite Z.lor_spec, Hb. reflexivity.
Qed.

Lemma shl_1_field_element (m : Z) :
  field_element m ->
  U32.shl m 1 = Z.shiftl m 1 /\ 0 <= U32.shl m 1 < 2 ^ 9.
Proof.
  unfold field_element. intros Hm.
  rewrite (shl_small m 1 8) by (change (2 ^ 8) with 256; lia).
  rewrite Z.shiftl_mul_pow2 by lia.
  change (2 ^ 1) with 2. change (2 ^ 9) with 512. lia.
Qed.

Lemma coefficient_body_closed (m : Z) :
  field_element m -> field_element (coefficient_body gf m).
Proof.
  intros Hm. unfold coefficient_body.
  destruct (shl_1_field_element m Hm) as [_ Hr].
  change PICK8 with (Z.shiftl PICK1 GF_INDEX).
  apply fold_modulus; [exact Hr|].
  apply field_modulus_lor_bit, lnot_bit.
Qed.

Lemma coefficient_body_iter_closed (n : nat) (m : Z) :
  field_element m -> field_element (Nat.iter n (coefficient_body gf) m).
Proof.
  intros Hm. induction n as [|n IH]; [exact Hm|].
  rewrite Nat.iter_succ. now apply coefficient_body_closed.
Qed.

(** On field elements the loop body is the doubling of the
    specification: the shift does not wrap and [parity8] sees a value
    below 256, whose bits it folds in full. *)
Lemma coefficient_body_doubling (m : Z) :
  field_element m -> coefficient_body gf m = doubling gf m.
Proof.
  intros Hm. unfold coefficient_body, doubling.
  destruct (shl_1_field_element m Hm) as [-> Hr].
  unfold PICK8. change 0x00000100 with (Z.shiftl 1 8).
  rewrite land_bit_test by lia.
  destruct (Z.testbit (Z.shiftl m 1) 8) eqn:B; cbn [negb]; [|reflexivity].
  f_equal. f_equal. unfold U32.lnot, parity.
  assert (Hx : 0 <= Z.lxor (Z.shiftl m 1) gf < 256).
  { destruct Hgf as [Hg Bg].
    apply (lxor_fold_top _ _ 8); auto; lia. }
  now rewrite (parity8_field_element _ Hx).
Qed.

Lemma coefficient_body_iter (n : nat) :
  Nat.iter n (coefficient_body gf) 1 = coefficient gf n.
Proof.
  unfold coefficient. induction n as [|n IH]; [reflexivity|].
  rewrite !Nat.iter_succ, <- IH.
  apply coefficient_body_doubling, coefficient_body_iter_closed.
  unfold field_element. lia.
Qed.

End Coefficients.

(** Every argument the builder hands to [parity8] is an 8-bit value:
    the call is made only when bit 8 of the shifted accumulator is set,
    and the modulus has that bit too. *)
Lemma parity8_argument_domain (gf m : Z) :
  field_modulus gf -> field_element m ->
  (Z.land (U32.shl m 1) PICK8 =? 0) = false ->
  0 <= Z.lxor (U32.shl m 1) gf < 256.
Proof.
  intros [Hg Bg] Hm Hbit.
  destruct (shl_1_field_element m Hm) as [_ Hr].
  change PICK8 with (Z.shiftl 1 8) in Hbit.
  rewrite land_bit_test in Hbit by lia.
  apply negb_false_iff in Hbit.
  apply (lxor_fold_top _ _ 8); auto; lia.
Qed.

Lemma trip_count_nonneg (e : Z) :
  0 <= e < 2 ^ 31 -> trip_count e = Z.to_nat e.
Proof.
  intros He. unfold trip_count, U32.to_int.
  destruct (Z.ltb_spec e (2 ^ 31)); [reflexivity|lia].
Qed.

Lemma trip_count_negative (e : Z) :
  2 ^ 31 <= e < 2 ^ 32 -> trip_count e = 0%nat.
Proof.
  intros He. unfold trip_count, U32.to_int, U32.modulus.
  destruct (Z.ltb_spec e (2 ^ 31)); lia.
Qed.

Lemma beta_multi_init_length : length beta_multi_init = ALPHA_SIZE.
Proof. reflexivity. Qed.

Example coefficients_of_beta :
  make_coefficients beta_multi_init beta_index BETA_GF =
  Some [0x1A; 0x6D; 0x08; 0xB6].
Proof. vm_compute. reflexivity. Qed.

(** C3: started from the accumulators [1, 1, 1, 1] that [main] passes,
    the builder returns, for each exponent [e] of the input list and in
    the order of that list, the accumulator obtained from 1 by [e]
    doublings, a doubling being: shift left by one bit and, if bit 8
    became set, XOR with [modulus OR 1] when
    [parity (accumulator XOR modulus)] is 0 and with [modulus] alone
    otherwise.  The exponents are non-negative [int] values and the
    modulus has bit 8 set and nothing above. *)
Theorem make_coefficients_doublings (gf : Z) (index : list Z) :
  field_modulus gf ->
  length index = ALPHA_SIZE ->
  Forall (fun e => 0 <= e < 2 ^ 31) index ->
  make_coefficients beta_multi_init index gf =
  Some ((fun e => coefficient gf (Z.to_nat e)) <$> index).
Proof.
  intros Hgf Hlen Hall.
  destruct (make_coefficients_cells gf beta_multi_init index)
    as (r & -> & Hr & Hk); [rewrite beta_multi_init_length; lia|lia|].
  f_equal. apply list_eq. intros k.
  rewrite Hk, list_lookup_fmap.
  destruct (decide (k < ALPHA_SIZE)%nat) as [Hlt|Hge].
  - destruct (lookup_lt_is_Some_2 index k) as [e He]; [lia|].
    rewrite He. cbn [default fmap option_fmap option_map].
    pose proof (Forall_lookup_1 _ _ _ _ Hall He) as He'. cbv beta in He'.
    replace (beta_multi_init !! k) with (Some 1).
    + cbn [fmap option_fmap option_map].
      now rewrite trip_count_nonneg, coefficient_body_iter.
    + unfold ALPHA_SIZE in Hlt.
      destruct k as [|[|[|[|k]]]]; try reflexivity; lia.
  - rewrite !lookup_ge_None_2
      by (rewrite ?beta_multi_init_length, ?length_fmap; lia).
    reflexivity.
Qed.

Lemma make_coefficients_doublings_witness :
  make_coefficients beta_multi_init beta_index BETA_GF =
  Some ((fun e => coefficient BETA_GF (Z.to_nat e)) <$> beta_index).
Proof.
  apply make_coefficients_doublings.
  - split; [unfold BETA_GF; lia|reflexivity].
  - reflexivity.
  - unfold beta_index. repeat constructor; lia.
Defined.

(** C9, as the code has it: the builder checks no exponent and has no
    failure path.  For every array of four accumulators and of four
    bounds it returns, and the cell of bound [e] has gone through
    [(int)e] runs of the loop body: [e] runs for a non-negative [int],
    none for a negative one.  Exponents above 1024 get no other
    treatment. *)
Theorem make_coefficients_unchecked (multi index : list Z) (gf : Z) :
  length multi = ALPHA_SIZE -> length index = ALPHA_SIZE ->
  exists r,
    make_coefficients multi index gf = Some r /\
    length r = ALPHA_SIZE /\
    forall k e m,
      index !! k = Some e -> multi !! k = Some m ->
      r !! k = Some (Nat.iter (trip_count e) (coefficient_body gf) m) /\
      (0 <= e < 2 ^ 31 -> trip_count e = Z.to_nat e) /\
      (2 ^ 31 <= e < 2 ^ 32 -> trip_count e = 0%nat).
Proof.
  intros Hm Hi.
  destruct (make_coefficients_cells gf multi index)
    as (r & Hrun & Hr & Hk); [lia|lia|].
  exists r. split; [exact Hrun|]. split; [lia|].
  intros k e m He Hmk.
  split; [|split; [apply trip_count_nonneg|apply trip_count_negative]].
  rewrite Hk, He, Hmk.
  pose proof (lookup_lt_Some _ _ _ He) as Hlt.
  rewrite decide_True by lia. reflexivity.
Qed.

Lemma make_coefficients_unchecked_witness :
  exists r,
    make_coefficients beta_multi_init [1025; 12; 3; 24] BETA_GF = Some r /\
    length r = ALPHA_SIZE /\
    forall k e m,
      [1025; 12; 3; 24] !! k = Some e -> beta_multi_init !! k = Some m ->
      r !! k = Some (Nat.iter (trip_count e) (coefficient_body BETA_GF) m) /\
      (0 <= e < 2 ^ 31 -> trip_count e = Z.to_nat e) /\
      (2 ^ 31 <= e < 2 ^ 32 -> trip_count e = 0%nat).
Proof. apply make_coefficients_unchecked; reflexivity. Defined.

(** C9 does not hold of the code: the exponent 1025, outside [0, 1024],
    is doubled 1025 times like any other, and no list of four exponents
    with one outside [0, 1024] makes the builder fail. *)
Lemma make_coefficients_accepts_1025 :
  make_coefficients beta_multi_init [1025; 12; 3; 24] BETA_GF =
    Some [Nat.iter 1025 (coefficient_body BETA_GF) 1; 0x6D; 0x08; 0xB6] /\
  ~ (exists index,
       length index = ALPHA_SIZE /\
       Exists (fun e => ~ 0 <= e <= 1024) index /\
       make_coefficients beta_multi_init index BETA_GF = None).
Proof.
  split; [vm_compute; reflexivity|].
  intros (index & Hlen & _ & Hnone).
  destruct (make_coefficients_cells BETA_GF beta_multi_init index)
    as (r & Hrun & _); [rewrite beta_multi_init_length; lia|lia|].
  congruence.
Qed.

(** ** make_alpha_table *)

Section AlphaTable.

Variable gf : Z.

Lemma alpha_table_body_Some (multi : list Z) (i j : nat) (s : list Z)
    (old m : Z) :
  multi !! j = Some m -> s !! i = Some old ->
  alpha_table_body multi gf i j s =
  Some (<[i := Z.lor old (alpha_lane multi gf i j)]> s).
Proof.
  intros Hm Hold. unfold alpha_table_body, alpha_lane.
  rewrite Hm, Hold. cbn [mbind option_bind default].
  apply store_Some. eapply lookup_lt_Some, Hold.
Qed.

Lemma alpha_inner_loop (multi : list Z) (i : nat) (s : list Z) (old : Z) :
  (ALPHA_SIZE <= length multi)%nat -> s !! i = Some old ->
  for_up ALPHA_SIZE 0 (alpha_table_body multi gf i) s =
  Some (<[i := alpha_cell multi gf i old]> s).
Proof.
  unfold ALPHA_SIZE. intros Hlen Hold.
  pose proof (lookup_lt_Some _ _ _ Hold) as Hlt.
  destruct (lookup_lt_is_Some_2 multi 0) as [m0 H0]; [lia|].
  destruct (lookup_lt_is_Some_2 multi 1) as [m1 H1]; [lia|].
  destruct (lookup_lt_is_Some_2 multi 2) as [m2 H2]; [lia|].
  destruct (lookup_lt_is_Some_2 multi 3) as [m3 H3]; [lia|].
  cbn [for_up].
  rewrite (alpha_table_body_Some multi i 0 s old m0 H0 Hold).
  erewrite (alpha_table_body_Some multi i 1 _ _ m1 H1)
    by now apply list_lookup_insert_eq.
  rewrite list_insert_insert_eq.
  erewrite (alpha_table_body_Some multi i 2 _ _ m2 H2)
    by now apply list_lookup_insert_eq.
  rewrite list_insert_insert_eq.
  erewrite (alpha_table_body_Some multi i 3 _ _ m3 H3)
    by now apply list_lookup_insert_eq.
  rewrite list_insert_insert_eq.
  reflexivity.
Qed.

(** The table builder ORs into what the table already holds: cell
    [k < 256] becomes its old contents OR the four lanes, the cells
    beyond are not touched. *)
Lemma make_alpha_table_cells (alpha multi : list Z) :
  (ALPHA_SIZE <= length multi)%nat -> (TABLE_SIZE <= length alpha)%nat ->
  exists r,
    make_alpha_table alpha multi gf = Some r /\ length r = length alpha /\
    forall k, r !! k =
      if decide (k < TABLE_SIZE)%nat
      then alpha_cell multi gf k <$> alpha !! k
      else alpha !! k.
Proof.
  intros Hm Ha. unfold make_alpha_table.
  destruct (for_up_cells (alpha_cell multi gf)
    (fun i alpha => for_up ALPHA_SIZE 0 (alpha_table_body multi gf i) alpha)
    TABLE_SIZE) with (n := TABLE_SIZE) (i0 := 0%nat) (s := alpha)
    as (r & Hrun & Hlen & Hk); try lia.
  - intros i s old _ Hold. now apply alpha_inner_loop.
  - exists r. split; [exact Hrun|]. split; [exact Hlen|].
    intros k. rewrite Hk.
    destruct (decide (k < TABLE_SIZE)%nat).
    + rewrite decide_True by lia. reflexivity.
    + rewrite decide_False by lia. reflexivity.
Qed.

End AlphaTable.

(** ** Byte lanes *)

Section Lanes.

(** A field element shifted left by [n] occupies the bits [n] to
    [n + 7]. *)
Lemma lane_testbit (x n m : Z) :
  field_element x -> 0 <= n -> 0 <= m ->
  Z.testbit (Z.shiftl x n) m =
  (n <=? m) && (m <? n + 8) && Z.testbit x (m - n).
Proof.
  unfold field_element. intros Hx Hn Hm.
  rewrite Z.shiftl_spec by exact Hm.
  destruct (Z.leb_spec n m), (Z.ltb_spec m (n + 8)); cbn [andb];
    try reflexivity.
  - apply (testbit_high x 8); [change (2 ^ 8) with 256|]; lia.
  - apply Z.testbit_neg_r. lia.
  - apply Z.testbit_neg_r. lia.
Qed.

Lemma shl_lane (x : Z) (j : nat) :
  field_element x -> (j < ALPHA_SIZE)%nat ->
  U32.shl x (Z.of_nat j * 8) = Z.shiftl x (8 * Z.of_nat j).
Proof.
  unfold field_element, ALPHA_SIZE. intros Hx Hj.
  rewrite (shl_small x _ 8) by (change (2 ^ 8) with 256; lia).
  rewrite Z.shiftl_mul_pow2 by lia. f_equal. f_equal. lia.
Qed.

(** Two distinct lanes have no bit in common. *)
Lemma lanes_disjoint (x y : Z) (j k : nat) :
  field_element x -> field_element y -> j <> k ->
  Z.land (Z.shiftl x (8 * Z.of_nat j)) (Z.shiftl y (8 * Z.of_nat k)) = 0.
Proof.
  intros Hx Hy Hjk. apply Z.bits_inj'. intros m Hm.
  rewrite Z.land_spec, Z.bits_0, !lane_testbit by (assumption || lia).
  destruct (Z.leb_spec (8 * Z.of_nat j) m),
           (Z.ltb_spec m (8 * Z.of_nat j + 8)),
           (Z.leb_spec (8 * Z.of_nat k) m),
           (Z.ltb_spec m (8 * Z.of_nat k + 8));
    cbn [andb]; try reflexivity; try apply andb_false_r; lia.
Qed.

(** Reading lane [j] of four packed field elements gives back the
    [j]-th of them. *)
Lemma byte_lane_packed (p0 p1 p2 p3 : Z) (j : nat) (p : Z) :
  field_element p0 -> field_element p1 ->
  field_element p2 -> field_element p3 ->
  [p0; p1; p2; p3] !! j = Some p ->
  byte_lane j
    (Z.lor (Z.shiftl p0 (8 * Z.of_nat 0))
       (Z.lor (Z.shiftl p1 (8 * Z.of_nat 1))
          (Z.lor (Z.shiftl p2 (8 * Z.of_nat 2))
             (Z.lor (Z.shiftl p3 (8 * Z.of_nat 3)) 0)))) = p.
Proof.
  intros H0 H1 H2 H3 Hj.
  assert (Hp : field_element p).
  { destruct j as [|[|[|[|j]]]]; cbn in Hj; try discriminate;
      injection Hj as <-; assumption. }
  assert (Hjlt : (j < 4)%nat)
    by (apply lookup_lt_Some in Hj; exact Hj).
  apply Z.bits_inj'. intros m Hm. unfold byte_lane.
  change 0xFF with (Z.ones 8).
  rewrite Z.land_ones, Z.testbit_mod_pow2, Z.shiftr_spec by lia.
  rewrite !Z.lor_spec, Z.bits_0, !lane_testbit by (assumption || lia).
  destruct (Z.ltb_spec m 8) as [Hlt|Hge]; cbn [andb].
  - destruct j as [|[|[|[|j]]]]; try lia;
      cbn in Hj; injection Hj as <-;
      repeat match goal with
             | |- context [?a <=? ?b] => destruct (Z.leb_spec a b); try lia
             | |- context [?a <? ?b] => destruct (Z.ltb_spec a b); try lia
             end;
      cbn [andb orb]; rewrite ?orb_false_r; f_equal; lia.
  - symmetry. apply (testbit_high p 8); [exact Hp|lia].
Qed.

End Lanes.

Section AlphaTableEntries.

Variable gf : Z.

Lemma alpha_cell_lor (multi : list Z) (i : nat) (old : Z) :
  alpha_cell multi gf i old = Z.lor old (alpha_cell multi gf i 0).
Proof.
  unfold alpha_cell. now rewrite Z.lor_0_l, !Z.lor_assoc.
Qed.

Hypothesis Hgf : field_modulus gf.

Lemma alpha_cell_packed (m0 m1 m2 m3 : Z) (i : nat) :
  field_element m0 -> field_element m1 ->
  field_element m2 -> field_element m3 ->
  alpha_cell [m0; m1; m2; m3] gf i 0 =
  packed_entry [m0; m1; m2; m3] gf (Z.of_nat i).
Proof.
  intros H0 H1 H2 H3.
  unfold alpha_cell, alpha_lane, packed_entry.
  cbn [lookup list_lookup default imap foldr compose].
  rewrite !shl_lane by (try apply multi_GF_closed; auto;
                        unfold ALPHA_SIZE; lia).
  now rewrite Z.lor_0_l, Z.lor_0_r, !Z.lor_assoc.
Qed.

End AlphaTableEntries.

Lemma alpha_0_init_length : length alpha_0_init = TABLE_SIZE.
Proof. apply length_replicate. Qed.

Lemma alpha_0_init_lookup (i : nat) :
  (i < TABLE_SIZE)%nat -> alpha_0_init !! i = Some 0.
Proof. apply lookup_replicate_2. Qed.

(** The model run on the constants of [main] gives the first entries of
    the table alpha_0 of RFC 7008. *)
Example alpha_0_first_entries :
  exists beta_multi alpha_0,
    main_tables = Some (beta_multi, alpha_0) /\
    take 4 alpha_0 = [0x00000000; 0xB6086D1A; 0xAF10DA34; 0x1918B72E].
Proof. eexists _, _. split; vm_compute; reflexivity. Qed.

(** C2: for every set of four field elements and every modulus of the
    field, the table built from the zeroed array of [main] has, at every
    index [i] in [0, 256), the OR over [j] of
    [multi_GF (multi[j], i)] shifted left by [8 * j] bits, and byte lane
    [j] of that entry, for [j] in [0, 4), is [multi_GF (multi[j], i)]. *)
Theorem make_alpha_table_lanes (gf : Z) (multi : list Z) :
  field_modulus gf ->
  length multi = ALPHA_SIZE ->
  Forall field_element multi ->
  exists table,
    make_alpha_table alpha_0_init multi gf = Some table /\
    length table = TABLE_SIZE /\
    forall i, (i < TABLE_SIZE)%nat ->
      exists w,
        table !! i = Some w /\
        w = packed_entry multi gf (Z.of_nat i) /\
        forall j m, multi !! j = Some m ->
          byte_lane j w = multi_GF m (Z.of_nat i) gf GF_INDEX.
Proof.
  intros Hgf Hlen Hall.
  destruct (make_alpha_table_cells gf alpha_0_init multi)
    as (table & Hrun & Hl & Hk); [lia|rewrite alpha_0_init_length; lia|].
  exists table. split; [exact Hrun|].
  split; [now rewrite Hl, alpha_0_init_length|].
  intros i Hi.
  destruct multi as [|m0 [|m1 [|m2 [|m3 [|]]]]]; try discriminate Hlen.
  apply Forall_cons in Hall as [H0 Hall].
  apply Forall_cons in Hall as [H1 Hall].
  apply Forall_cons in Hall as [H2 Hall].
  apply Forall_cons in Hall as [H3 _].
  exists (packed_entry [m0; m1; m2; m3] gf (Z.of_nat i)).
  split; [|split; [reflexivity|]].
  - rewrite Hk, decide_True, alpha_0_init_lookup by exact Hi.
    cbn [fmap option_fmap option_map]. f_equal.
    now apply alpha_cell_packed.
  - intros j m Hj. unfold packed_entry.
    cbn [lookup list_lookup default imap foldr compose].
    apply byte_lane_packed; try (apply multi_GF_closed; assumption).
    destruct j as [|[|[|[|j]]]]; cbn [lookup list_lookup] in Hj |- *;
      try discriminate Hj; injection Hj as <-; reflexivity.
Qed.

Lemma make_alpha_table_lanes_witness :
  exists table,
    make_alpha_table alpha_0_init [0x1A; 0x6D; 0x08; 0xB6] BETA_GF
      = Some table /\
    length table = TABLE_SIZE /\
    forall i, (i < TABLE_SIZE)%nat ->
      exists w,
        table !! i = Some w /\
        w = packed_entry [0x1A; 0x6D; 0x08; 0xB6] BETA_GF (Z.of_nat i) /\
        forall j m, [0x1A; 0x6D; 0x08; 0xB6] !! j = Some m ->
          byte_lane j w = multi_GF m (Z.of_nat i) BETA_GF GF_INDEX.
Proof.
  apply make_alpha_table_lanes.
  - split; [unfold BETA_GF; lia|reflexivity].
  - reflexivity.
  - unfold field_element. repeat constructor; lia.
Defined.

(** C4, as the code has it: the table builder does not zero the array
    it is given; it ORs the four packed lanes into each of its 256
    entries, so entry [i] of the result is the prior entry OR the lanes.
    The zeroing is the initialiser of [alpha_0] in [main], and on that
    zeroed array every entry is exactly the OR of the four lanes. *)
Theorem make_alpha_table_ors_into (gf : Z) (prior multi : list Z) :
  length prior = TABLE_SIZE -> length multi = ALPHA_SIZE ->
  (exists table,
     make_alpha_table prior multi gf = Some table /\
     length table = TABLE_SIZE /\
     forall i old, prior !! i = Some old ->
       table !! i = Some (Z.lor old (alpha_cell multi gf i 0))) /\
  (exists table,
     make_alpha_table alpha_0_init multi gf = Some table /\
     length table = TABLE_SIZE /\
     forall i, (i < TABLE_SIZE)%nat ->
       table !! i = Some (alpha_cell multi gf i 0)).
Proof.
  intros Hp Hm. split.
  - destruct (make_alpha_table_cells gf prior multi)
      as (table & Hrun & Hl & Hk); [lia|lia|].
    exists table. split; [exact Hrun|]. split; [lia|].
    intros i old Hold. pose proof (lookup_lt_Some _ _ _ Hold) as Hi.
    rewrite Hk, decide_True, Hold by lia.
    cbn [fmap option_fmap option_map]. f_equal. apply alpha_cell_lor.
  - destruct (make_alpha_table_cells gf alpha_0_init multi)
      as (table & Hrun & Hl & Hk); [lia|rewrite alpha_0_init_length; lia|].
    exists table. split; [exact Hrun|].
    split; [now rewrite Hl, alpha_0_init_length|].
    intros i Hi. rewrite Hk, decide_True, alpha_0_init_lookup by exact Hi.
    reflexivity.
Qed.

Lemma make_alpha_table_ors_into_witness :
  (exists table,
     make_alpha_table (replicate TABLE_SIZE 0xFF) [0x1A; 0x6D; 0x08; 0xB6]
       BETA_GF = Some table /\
     length table = TABLE_SIZE /\
     forall i old, replicate TABLE_SIZE 0xFF !! i = Some old ->
       table !! i =
       Some (Z.lor old (alpha_cell [0x1A; 0x6D; 0x08; 0xB6] BETA_GF i 0))) /\
  (exists table,
     make_alpha_table alpha_0_init [0x1A; 0x6D; 0x08; 0xB6] BETA_GF
       = Some table /\
     length table = TABLE_SIZE /\
     forall i, (i < TABLE_SIZE)%nat ->
       table !! i = Some (alpha_cell [0x1A; 0x6D; 0x08; 0xB6] BETA_GF i 0)).
Proof.
  apply make_alpha_table_ors_into; [apply length_replicate|reflexivity].
Defined.

(** C4 does not hold of the code: run on an array whose entries are all
    [0xFFFFFFFF], the builder returns that array unchanged, which is
    not the table it returns on the zeroed array. *)
Lemma make_alpha_table_depends_on_prior :
  make_alpha_table (replicate TABLE_SIZE 0xFFFFFFFF)
    [0x1A; 0x6D; 0x08; 0xB6] BETA_GF
    = Some (replicate TABLE_SIZE 0xFFFFFFFF) /\
  make_alpha_table alpha_0_init [0x1A; 0x6D; 0x08; 0xB6] BETA_GF <>
  make_alpha_table (replicate TABLE_SIZE 0xFFFFFFFF)
    [0x1A; 0x6D; 0x08; 0xB6] BETA_GF.
Proof.
  split; [vm_compute; reflexivity|].
  vm_compute. intros H. discriminate H.
Qed.

(** ** Closure of the field elements *)

(** C8: for every modulus with bit 8 set and no bit above it,
    [multi_GF a b gf 8] lies in [0, 255] for every [a] in [0, 256) and
    every 32-bit [b].  Consequently, started from field elements, the
    cell rewritten by the doubling loop of the coefficient builder holds
    a value in [0, 255] after any number of iterations, the builder
    returns values in [0, 255], and two distinct lanes ORed into an
    entry of the alpha table share no bit. *)
Theorem field_element_closure (gf : Z) :
  field_modulus gf ->
  (forall a b, 0 <= a < 256 -> U32.in_range b ->
     0 <= multi_GF a b gf GF_INDEX <= 255) /\
  (forall multi i m n,
     Forall field_element multi -> multi !! i = Some m ->
     exists v,
       for_up n 0 (fun _ => make_coefficients_body gf i) multi
         = Some (<[i := v]> multi) /\
       0 <= v <= 255) /\
  (forall multi index,
     length multi = ALPHA_SIZE -> length index = ALPHA_SIZE ->
     Forall field_element multi ->
     exists r,
       make_coefficients multi index gf = Some r /\
       Forall (fun c => 0 <= c <= 255) r) /\
  (forall multi i j k,
     Forall field_element multi ->
     (j < ALPHA_SIZE)%nat -> (k < ALPHA_SIZE)%nat -> j <> k ->
     Z.land (alpha_lane multi gf i j) (alpha_lane multi gf i k) = 0).
Proof.
  intros Hgf. split; [|split; [|split]].
  - intros a b Ha _.
    pose proof (multi_GF_closed gf Hgf a b Ha) as Hc.
    unfold field_element in Hc. lia.
  - intros multi i m n Hall Hm.
    exists (Nat.iter n (coefficient_body gf) m).
    split; [now apply inner_loop_runs|].
    pose proof (Forall_lookup_1 _ _ _ _ Hall Hm) as Hfe.
    pose proof (coefficient_body_iter_closed gf Hgf n m Hfe) as Hc.
    unfold field_element in Hc. lia.
  - intros multi index Hm Hi Hall.
    destruct (make_coefficients_cells gf multi index)
      as (r & Hrun & Hr & Hk); [lia|lia|].
    exists r. split; [exact Hrun|].
    apply Forall_lookup. intros k x Hx. rewrite Hk in Hx.
    assert (Hfe : field_element x); [|unfold field_element in Hfe; lia].
    destruct (decide (k < ALPHA_SIZE)%nat).
    + destruct (multi !! k) as [m|] eqn:Hmk; [|discriminate Hx].
      injection Hx as <-.
      apply coefficient_body_iter_closed; [exact Hgf|].
      exact (Forall_lookup_1 _ _ _ _ Hall Hmk).
    + exact (Forall_lookup_1 _ _ _ _ Hall Hx).
  - intros multi i j k Hall Hj Hk Hjk. unfold alpha_lane.
    assert (Hd : forall n, field_element (default 0 (multi !! n))).
    { intros n. destruct (multi !! n) as [m|] eqn:Hn; cbn [default].
      - exact (Forall_lookup_1 _ _ _ _ Hall Hn).
      - unfold field_element. lia. }
    rewrite !shl_lane by (try apply multi_GF_closed; auto).
    apply lanes_disjoint; try apply multi_GF_closed; auto.
Qed.

Lemma field_element_closure_witness :
  (forall a b, 0 <= a < 256 -> U32.in_range b ->
     0 <= multi_GF a b BETA_GF GF_INDEX <= 255) /\
  (forall multi i m n,
     Forall field_element multi -> multi !! i = Some m ->
     exists v,
       for_up n 0 (fun _ => make_coefficients_body BETA_GF i) multi
         = Some (<[i := v]> multi) /\
       0 <= v <= 255) /\
  (forall multi index,
     length multi = ALPHA_SIZE -> length index = ALPHA_SIZE ->
     Forall field_element multi ->
     exists r,
       make_coefficients multi index BETA_GF = Some r /\
       Forall (fun c => 0 <= c <= 255) r) /\
  (forall multi i j k,
     Forall field_element multi ->
     (j < ALPHA_SIZE)%nat -> (k < ALPHA_SIZE)%nat -> j <> k ->
     Z.land (alpha_lane multi BETA_GF i j) (alpha_lane multi BETA_GF i k) = 0).
Proof.
  apply field_element_closure.
  split; [unfold BETA_GF; lia|reflexivity].
Defined.


(** * Further properties of the translation unit *)

(** ** parity8 and parity32 beyond the 8-bit values *)

Section XorFold.

Lemma xor_fold_bits_ext (x y : Z) (n : nat) :
  (forall i, 0 <= i < Z.of_nat n -> Z.testbit x i = Z.testbit y i) ->
  xor_fold_bits x n = xor_fold_bits y n.
Proof.
  induction n as [|n IH]; intros H; [reflexivity|].
  cbn [xor_fold_bits]. rewrite IH, (H (Z.of_nat n)) by (intros; try apply H; lia).
  reflexivity.
Qed.

Lemma xor_fold_bits_lxor (x y : Z) (n : nat) :
  xor_fold_bits (Z.lxor x y) n =
  xorb (xor_fold_bits x n) (xor_fold_bits y n).
Proof.
  induction n as [|n IH]; [reflexivity|].
  cbn [xor_fold_bits]. rewrite IH, Z.lxor_spec.
  destruct (xor_fold_bits x n), (xor_fold_bits y n),
    (Z.testbit x (Z.of_nat n)), (Z.testbit y (Z.of_nat n)); reflexivity.
Qed.

(** Folding [n + m] bits is folding the [n] low ones and the [m] next
    ones. *)
Lemma xor_fold_bits_split (x : Z) (n m : nat) :
  xor_fold_bits x (n + m) =
  xorb (xor_fold_bits x n) (xor_fold_bits (Z.shiftr x (Z.of_nat n)) m).
Proof.
  induction m as [|m IH].
  - rewrite Nat.add_0_r. cbn [xor_fold_bits]. now rewrite xorb_false_r.
  - rewrite Nat.add_succ_r. cbn [xor_fold_bits].
    rewrite IH, Z.shiftr_spec by lia.
    replace (Z.of_nat m + Z.of_nat n) with (Z.of_nat (n + m)) by lia.
    now rewrite xorb_assoc.
Qed.

(** One halving step [p ^= p >> n] moves the fold of [2 n] bits into
    the [n] low bits. *)
Lemma xor_fold_bits_halve (p : Z) (n : nat) :
  xor_fold_bits (Z.lxor p (Z.shiftr p (Z.of_nat n))) n =
  xor_fold_bits p (n + n).
Proof. now rewrite xor_fold_bits_lxor, xor_fold_bits_split. Qed.

End XorFold.

(** X1: [parity32] returns the XOR-fold of the 32 low bits of its
    argument, hence of all the bits of a [uint32_t]; equivalently 1 when
    an odd number of those bits is set and 0 otherwise. *)
Theorem parity32_xor_fold (x : Z) :
  parity32 x = Z.b2z (xor_fold_bits x 32) /\
  parity32 x = (if Nat.odd (count_set_bits x 32) then 1 else 0).
Proof.
  assert (E : parity32 x = Z.b2z (xor_fold_bits x 32)).
  { unfold parity32, U32.shr, PICK1. rewrite land_1. f_equal.
    set (p1 := Z.lxor x (Z.shiftr x 16)).
    set (p2 := Z.lxor p1 (Z.shiftr p1 8)).
    set (p3 := Z.lxor p2 (Z.shiftr p2 4)).
    set (p4 := Z.lxor p3 (Z.shiftr p3 2)).
    change (Z.testbit (Z.lxor p4 (Z.shiftr p4 1)) 0)
      with (xor_fold_bits (Z.lxor p4 (Z.shiftr p4 (Z.of_nat 1))) 1).
    rewrite xor_fold_bits_halve.
    change (xor_fold_bits p4 (1 + 1))
      with (xor_fold_bits (Z.lxor p3 (Z.shiftr p3 (Z.of_nat 2))) 2).
    rewrite xor_fold_bits_halve.
    change (xor_fold_bits p3 (2 + 2))
      with (xor_fold_bits (Z.lxor p2 (Z.shiftr p2 (Z.of_nat 4))) 4).
    rewrite xor_fold_bits_halve.
    change (xor_fold_bits p2 (4 + 4))
      with (xor_fold_bits (Z.lxor p1 (Z.shiftr p1 (Z.of_nat 8))) 8).
    rewrite xor_fold_bits_halve.
    change (xor_fold_bits p1 (8 + 8))
      with (xor_fold_bits (Z.lxor x (Z.shiftr x (Z.of_nat 16))) 16).
    now rewrite xor_fold_bits_halve. }
  split; [exact E|].
  rewrite E, xor_fold_bits_odd. now destruct (Nat.odd _).
Qed.

(** X2: [parity8] never looks above bit 7: for every [int] argument it
    returns the XOR-fold of the eight low bits, so two arguments with
    the same low byte have the same [parity8]; a set bit 8 is not
    counted. *)
Theorem parity8_low_byte (x : Z) :
  parity8 x = Z.b2z (xor_fold_bits x 8) /\
  parity8 x = parity8 (x mod 256) /\
  parity8 (x + 256) = parity8 x.
Proof.
  assert (E : forall y, parity8 y = Z.b2z (xor_fold_bits y 8)).
  { intros y. rewrite parity8_low_bits. f_equal.
    apply xor_fold_bits_ext. intros i Hi.
    unfold U32.wrap, U32.modulus. apply Z.mod_pow2_bits_low. lia. }
  assert (L : forall y z, y mod 2 ^ 8 = z mod 2 ^ 8 -> parity8 y = parity8 z).
  { intros y z Hyz. rewrite !E. f_equal.
    apply xor_fold_bits_ext. intros i Hi.
    rewrite <- (Z.mod_pow2_bits_low y 8 i), <- (Z.mod_pow2_bits_low z 8 i)
      by lia.
    now rewrite Hyz. }
  split; [apply E|]. split; apply L.
  - change (2 ^ 8) with 256. now rewrite Z.mod_mod by lia.
  - change (2 ^ 8) with 256.
    replace (x + 256) with (x + 1 * 256) by lia.
    now rewrite Z.mod_add by lia.
Qed.

(** ** multi_GF: which bits of the second operand count *)

Section SecondOperand.

Variables a gf gf_idx : Z.

Lemma bit_test_low_byte (num : Z) (k : nat) :
  (k < 8)%nat ->
  (Z.land (num mod 256) (Z.shiftl PICK1 (Z.of_nat k)) =? 0) =
  (Z.land num (Z.shiftl PICK1 (Z.of_nat k)) =? 0).
Proof.
  intros Hk. unfold PICK1. rewrite !land_bit_test by lia.
  change 256 with (2 ^ 8). now rewrite Z.mod_pow2_bits_low by lia.
Qed.

Lemma scan_pos_low_byte (num : Z) (k : nat) :
  (k <= 8)%nat -> scan_pos (num mod 256) k = scan_pos num k.
Proof.
  induction k as [|k IH]; intros Hk; [reflexivity|].
  cbn [scan_pos]. rewrite bit_test_low_byte, IH by lia. reflexivity.
Qed.

Lemma multi_GF_loop_low_byte (num : Z) (k : nat) (t : Z) :
  (k <= 8)%nat ->
  multi_GF_loop a (num mod 256) gf gf_idx k t =
  multi_GF_loop a num gf gf_idx k t.
Proof.
  revert t. induction k as [|k IH]; intros t Hk; [reflexivity|].
  cbn [multi_GF_loop]. unfold multi_GF_body.
  rewrite bit_test_low_byte by lia. apply IH. lia.
Qed.

(** The first loop stops at the highest set bit of the low byte. *)
Lemma scan_pos_highest (num : Z) (k : nat) :
  (Z.testbit num (scan_pos num k) = true /\
   0 <= scan_pos num k < Z.of_nat k /\
   forall m, scan_pos num k < m < Z.of_nat k -> Z.testbit num m = false) \/
  (scan_pos num k = -1 /\
   forall m, 0 <= m < Z.of_nat k -> Z.testbit num m = false).
Proof.
  induction k as [|k IH]; [right; split; [reflexivity|intros; lia]|].
  cbn [scan_pos]. unfold PICK1. rewrite land_bit_test by lia.
  destruct (Z.testbit num (Z.of_nat k)) eqn:B; cbn [negb].
  - left. split; [exact B|]. split; [lia|]. intros; lia.
  - destruct IH as [(Hb & Hr & Hz)|(Hm & Hz)].
    + left. split; [exact Hb|]. split; [lia|].
      intros m Hm. destruct (Z.eq_dec m (Z.of_nat k)) as [->|]; [exact B|].
      apply Hz. lia.
    + right. split; [exact Hm|].
      intros m Hm'. destruct (Z.eq_dec m (Z.of_nat k)) as [->|]; [exact B|].
      apply Hz. lia.
Qed.

End SecondOperand.

(** X3: [multi_GF] reads only the eight low bits of its second operand:
    replacing [num] by [num mod 256] changes nothing, whatever the other
    arguments; in particular a multiple of 256 multiplies to 0. *)
Theorem multi_GF_low_byte (a num gf gf_idx : Z) :
  multi_GF a num gf gf_idx = multi_GF a (num mod 256) gf gf_idx /\
  multi_GF a (256 * num) gf gf_idx = 0.
Proof.
  assert (E : forall n, multi_GF a n gf gf_idx
                        = multi_GF a (n mod 256) gf gf_idx).
  { intros n. unfold multi_GF. rewrite scan_pos_low_byte by lia.
    symmetry. apply multi_GF_loop_low_byte.
    pose proof (scan_pos_range n 8). lia. }
  split; [apply E|].
  rewrite E, Z.mul_comm, Z.mod_mul by lia. reflexivity.
Qed.

(** X4: for a second operand in [1, 256) the first loop of [multi_GF]
    leaves [pos] at the position of its highest set bit, so the second
    loop runs [log2 num + 1] times. *)
Theorem scan_pos_log2 (num : Z) :
  0 < num < 256 ->
  scan_pos num 8 = Z.log2 num /\
  forall a gf gf_idx,
    multi_GF a num gf gf_idx =
    multi_GF_loop a num gf gf_idx (Z.to_nat (Z.log2 num + 1)) 0.
Proof.
  intros Hn.
  assert (E : scan_pos num 8 = Z.log2 num).
  { destruct (scan_pos_highest num 8) as [(Hb & Hr & Hz)|(_ & Hz)].
    - symmetry. apply Z.log2_bits_unique; [exact Hb|].
      intros m Hm. destruct (Z.lt_ge_cases m 8) as [Hlt|Hge].
      + apply Hz. lia.
      + apply (testbit_high num 8); [change (2 ^ 8) with 256|]; lia.
    - exfalso. assert (E : num = 0); [|lia].
      apply Z.bits_inj'. intros m Hm. rewrite Z.bits_0.
      destruct (Z.lt_ge_cases m 8) as [Hlt|Hge].
      + apply Hz. lia.
      + apply (testbit_high num 8); [change (2 ^ 8) with 256|]; lia. }
  split; [exact E|]. intros a gf gf_idx. unfold multi_GF. now rewrite E.
Qed.

Lemma scan_pos_log2_witness :
  scan_pos 0x2C 8 = Z.log2 0x2C /\
  forall a gf gf_idx,
    multi_GF a 0x2C gf gf_idx =
    multi_GF_loop a 0x2C gf gf_idx (Z.to_nat (Z.log2 0x2C + 1)) 0.
Proof. apply (scan_pos_log2 0x2C). lia. Defined.

(** ** multi_GF: the laws of the field *)

Section Linearity.

Lemma lxor_swap (p q r s : Z) :
  Z.lxor (Z.lxor p q) (Z.lxor r s) = Z.lxor (Z.lxor p r) (Z.lxor q s).
Proof.
  rewrite !Z.lxor_assoc. f_equal.
  rewrite <- !Z.lxor_assoc. f_equal. apply Z.lxor_comm.
Qed.

Lemma shl_lxor (x y n : Z) :
  U32.shl (Z.lxor x y) n = Z.lxor (U32.shl x n) (U32.shl y n).
Proof.
  unfold U32.shl, U32.wrap, U32.modulus. rewrite Z.shiftl_lxor.
  apply Z.bits_inj'. intros m Hm.
  rewrite Z.lxor_spec, !Z.testbit_mod_pow2, Z.lxor_spec by lia.
  destruct (m <? 32); reflexivity.
Qed.

(** The conditional XOR with the modulus commutes with XOR. *)
Lemma fold_bit_lxor (x y gf idx : Z) :
  0 <= idx ->
  (if Z.land (Z.lxor x y) (Z.shiftl PICK1 idx) =? 0
   then Z.lxor x y else Z.lxor (Z.lxor x y) gf) =
  Z.lxor (if Z.land x (Z.shiftl PICK1 idx) =? 0 then x else Z.lxor x gf)
         (if Z.land y (Z.shiftl PICK1 idx) =? 0 then y else Z.lxor y gf).
Proof.
  intros Hi. unfold PICK1. rewrite !land_bit_test, Z.lxor_spec by exact Hi.
  destruct (Z.testbit x idx), (Z.testbit y idx); cbn [xorb negb].
  - rewrite lxor_swap, Z.lxor_nilpotent. now rewrite Z.lxor_0_r.
  - rewrite !Z.lxor_assoc. f_equal. apply Z.lxor_comm.
  - now rewrite Z.lxor_assoc.
  - reflexivity.
Qed.

Variable gf : Z.

Lemma multi_GF_body_lxor_l (a a' num i t t' : Z) :
  multi_GF_body (Z.lxor a a') num gf GF_INDEX i (Z.lxor t t') =
  Z.lxor (multi_GF_body a num gf GF_INDEX i t)
         (multi_GF_body a' num gf GF_INDEX i t').
Proof.
  unfold multi_GF_body. rewrite shl_lxor.
  rewrite <- fold_bit_lxor by (unfold GF_INDEX; lia).
  replace (Z.lxor (Z.lxor (U32.shl t 1) (U32.shl t' 1))
             (if Z.land num (Z.shiftl PICK1 i) =? 0 then 0 else Z.lxor a a'))
    with (Z.lxor
            (Z.lxor (U32.shl t 1)
               (if Z.land num (Z.shiftl PICK1 i) =? 0 then 0 else a))
            (Z.lxor (U32.shl t' 1)
               (if Z.land num (Z.shiftl PICK1 i) =? 0 then 0 else a')));
    [reflexivity|].
  rewrite lxor_swap. f_equal. now destruct (_ =? 0).
Qed.

Lemma multi_GF_body_lxor_r (a num num' i t t' : Z) :
  0 <= i ->
  multi_GF_body a (Z.lxor num num') gf GF_INDEX i (Z.lxor t t') =
  Z.lxor (multi_GF_body a num gf GF_INDEX i t)
         (multi_GF_body a num' gf GF_INDEX i t').
Proof.
  intros Hi. unfold multi_GF_body. rewrite shl_lxor.
  rewrite <- fold_bit_lxor by (unfold GF_INDEX; lia).
  replace (Z.lxor (Z.lxor (U32.shl t 1) (U32.shl t' 1))
             (if Z.land (Z.lxor num num') (Z.shiftl PICK1 i) =? 0
              then 0 else a))
    with (Z.lxor
            (Z.lxor (U32.shl t 1)
               (if Z.land num (Z.shiftl PICK1 i) =? 0 then 0 else a))
            (Z.lxor (U32.shl t' 1)
               (if Z.land num' (Z.shiftl PICK1 i) =? 0 then 0 else a)));
    [reflexivity|].
  rewrite lxor_swap. f_equal.
  unfold PICK1. rewrite !land_bit_test, Z.lxor_spec by exact Hi.
  destruct (Z.testbit num i), (Z.testbit num' i); cbn [xorb negb];
    now rewrite ?Z.lxor_nilpotent, ?Z.lxor_0_r, ?Z.lxor_0_l.
Qed.

Lemma multi_GF_loop_lxor_l (a a' num : Z) (k : nat) (t t' : Z) :
  multi_GF_loop (Z.lxor a a') num gf GF_INDEX k (Z.lxor t t') =
  Z.lxor (multi_GF_loop a num gf GF_INDEX k t)
         (multi_GF_loop a' num gf GF_INDEX k t').
Proof.
  revert t t'. induction k as [|k IH]; intros t t'; [reflexivity|].
  cbn [multi_GF_loop]. now rewrite multi_GF_body_lxor_l, IH.
Qed.

Lemma multi_GF_loop_lxor_r (a num num' : Z) (k : nat) (t t' : Z) :
  multi_GF_loop a (Z.lxor num num') gf GF_INDEX k (Z.lxor t t') =
  Z.lxor (multi_GF_loop a num gf GF_INDEX k t)
         (multi_GF_loop a num' gf GF_INDEX k t').
Proof.
  revert t t'. induction k as [|k IH]; intros t t'; [reflexivity|].
  cbn [multi_GF_loop]. now rewrite multi_GF_body_lxor_r, IH by lia.
Qed.

Lemma multi_GF_lxor_l (a a' num : Z) :
  multi_GF (Z.lxor a a') num gf GF_INDEX =
  Z.lxor (multi_GF a num gf GF_INDEX) (multi_GF a' num gf GF_INDEX).
Proof.
  unfold multi_GF. change 0 with (Z.lxor 0 0) at 1.
  apply multi_GF_loop_lxor_l.
Qed.

Lemma multi_GF_eight_bits (a num : Z) :
  multi_GF a num gf GF_INDEX = multi_GF_loop a num gf GF_INDEX 8 0.
Proof. unfold multi_GF. symmetry. apply multi_GF_loop_skip. Qed.

Lemma multi_GF_lxor_r (a num num' : Z) :
  multi_GF a (Z.lxor num num') gf GF_INDEX =
  Z.lxor (multi_GF a num gf GF_INDEX) (multi_GF a num' gf GF_INDEX).
Proof.
  rewrite !multi_GF_eight_bits. change 0 with (Z.lxor 0 0) at 1.
  apply multi_GF_loop_lxor_r.
Qed.

Lemma multi_GF_0_l (num : Z) : multi_GF 0 num gf GF_INDEX = 0.
Proof.
  pose proof (multi_GF_lxor_l 0 0 num) as H.
  change (Z.lxor 0 0) with 0 in H. now rewrite Z.lxor_nilpotent in H.
Qed.

End Linearity.

(** X5: [multi_GF] distributes over XOR, the addition of the field, in
    each operand, for every modulus and all operands:
    [(a ^ a') * b = a * b ^ a' * b] and [a * (b ^ b') = a * b ^ a * b'];
    hence also [0 * b = 0]. *)
Theorem multi_GF_distributes (gf a a' b b' : Z) :
  multi_GF (Z.lxor a a') b gf GF_INDEX =
    Z.lxor (multi_GF a b gf GF_INDEX) (multi_GF a' b gf GF_INDEX) /\
  multi_GF a (Z.lxor b b') gf GF_INDEX =
    Z.lxor (multi_GF a b gf GF_INDEX) (multi_GF a b' gf GF_INDEX) /\
  multi_GF 0 b gf GF_INDEX = 0.
Proof.
  split; [apply multi_GF_lxor_l|].
  split; [apply multi_GF_lxor_r|apply multi_GF_0_l].
Qed.

Section FieldLaws.

(** A property of the 8-bit values that holds of 0 and of the eight
    powers of two, and is kept by XOR, holds of all of them. *)
Lemma xor_basis_ind (P : Z -> Prop) :
  P 0 ->
  (forall x y, P x -> P y -> P (Z.lxor x y)) ->
  (forall i, 0 <= i < 8 -> P (2 ^ i)) ->
  forall a, 0 <= a < 256 -> P a.
Proof.
  intros H0 Hxor Hpow.
  assert (Hn : forall n : nat, (n <= 8)%nat ->
                 forall a, 0 <= a < 2 ^ Z.of_nat n -> P a).
  { induction n as [|n IH]; intros Hle a Ha.
    - change (2 ^ Z.of_nat 0) with 1 in Ha.
      replace a with 0 by lia. exact H0.
    - set (top := if Z.testbit a (Z.of_nat n) then 2 ^ Z.of_nat n else 0).
      assert (E : a = Z.lxor (a mod 2 ^ Z.of_nat n) top).
      { apply Z.bits_inj'. intros m Hm.
        rewrite Z.lxor_spec, Z.testbit_mod_pow2 by lia.
        assert (Ht : Z.testbit top m =
                     (Z.of_nat n =? m) && Z.testbit a (Z.of_nat n)).
        { unfold top. destruct (Z.testbit a (Z.of_nat n)).
          - rewrite Z.pow2_bits_eqb by lia. now rewrite andb_true_r.
          - rewrite Z.bits_0. now rewrite andb_false_r. }
        rewrite Ht.
        destruct (Z.ltb_spec m (Z.of_nat n)), (Z.eqb_spec (Z.of_nat n) m);
          cbn [andb xorb]; try lia.
        - now rewrite xorb_false_r.
        - subst m. reflexivity.
        - apply (testbit_high a (Z.of_nat (S n))); lia. }
      rewrite E. apply Hxor.
      + apply IH; [lia|]. apply Z.mod_pos_bound, Z.pow_pos_nonneg; lia.
      + unfold top. destruct (Z.testbit a (Z.of_nat n)); [|exact H0].
        apply Hpow. lia. }
  intros a Ha. apply (Hn 8%nat); [lia|exact Ha].
Qed.

Lemma all_below3_spec (n1 n2 n3 : nat) (f : Z -> Z -> Z -> bool) :
  all_below3 n1 n2 n3 f = true ->
  forall a b c, 0 <= a < Z.of_nat n1 -> 0 <= b < Z.of_nat n2 ->
                0 <= c < Z.of_nat n3 -> f a b c = true.
Proof.
  unfold all_below3. intros H a b c Ha Hb Hc.
  pose proof (all_below_spec n1 _ H a Ha) as H1. cbv beta in H1.
  pose proof (all_below_spec n2 _ H1 b Hb) as H2. cbv beta in H2.
  exact (all_below_spec n3 _ H2 c Hc).
Qed.

Lemma all_below4_spec (n1 n2 n3 n4 : nat) (f : Z -> Z -> Z -> Z -> bool) :
  all_below4 n1 n2 n3 n4 f = true ->
  forall a b c d, 0 <= a < Z.of_nat n1 -> 0 <= b < Z.of_nat n2 ->
                  0 <= c < Z.of_nat n3 -> 0 <= d < Z.of_nat n4 ->
                  f a b c d = true.
Proof.
  unfold all_below4. intros H a b c d Ha Hb Hc Hd.
  pose proof (all_below_spec n1 _ H a Ha) as H1. cbv beta in H1.
  exact (all_below3_spec n2 n3 n4 (f a) H1 b c d Hb Hc Hd).
Qed.

(** The products of two and of three powers of two, evaluated for the
    256 moduli of degree 8. *)
Lemma multi_GF_comm_basis :
  all_below3 256 8 8 multi_GF_comm_basis_at = true.
Proof. vm_compute. reflexivity. Qed.

Lemma multi_GF_assoc_basis :
  all_below4 256 8 8 8 multi_GF_assoc_basis_at = true.
Proof. vm_compute. reflexivity. Qed.

Lemma field_modulus_offset (gf : Z) :
  field_modulus gf -> 0 <= gf - 256 < Z.of_nat 256 /\ gf = 256 + (gf - 256).
Proof. intros H. apply field_modulus_range in H. lia. Qed.

(** All 65536 products, evaluated once more, for their zeros. *)
Lemma multi_GF_regular_BETA_GF :
  all_below2 256 (multi_GF_regular_at BETA_GF) = true.
Proof. vm_compute. reflexivity. Qed.

Lemma multi_GF_no_zero_divisor (a b : Z) :
  0 <= a < 256 -> 0 <= b < 256 ->
  multi_GF a b BETA_GF GF_INDEX = 0 -> a = 0 \/ b = 0.
Proof.
  intros Ha Hb Hz.
  pose proof (all_below2_spec 256 (multi_GF_regular_at BETA_GF)
                multi_GF_regular_BETA_GF a b Ha Hb) as H.
  unfold multi_GF_regular_at in H. rewrite Hz in H.
  change (negb (0 =? 0)) with false in H. cbn [orb] in H.
  apply orb_true_iff in H as [H|H]; apply Z.eqb_eq in H; auto.
Qed.

Lemma multi_GF_cancel_l (a b b' : Z) :
  0 <= a < 256 -> 0 <= b < 256 -> 0 <= b' < 256 -> a <> 0 ->
  multi_GF a b BETA_GF GF_INDEX = multi_GF a b' BETA_GF GF_INDEX ->
  b = b'.
Proof.
  intros Ha Hb Hb' Hnz Heq.
  apply Z.lxor_eq.
  assert (Hr : 0 <= Z.lxor b b' < 256)
    by (apply (lxor_range b b' 8); change (2 ^ 8) with 256; lia).
  destruct (multi_GF_no_zero_divisor a (Z.lxor b b') Ha Hr); [|lia|assumption].
  rewrite multi_GF_lxor_r, Heq. apply Z.lxor_nilpotent.
Qed.

End FieldLaws.

(** X6: for every modulus of degree 8 (bit 8 set, nothing above),
    [multi_GF] is commutative and associative on [0, 256), and 1 is a
    two-sided identity. *)
Theorem multi_GF_ring_laws (gf a b c : Z) :
  field_modulus gf ->
  0 <= a < 256 -> 0 <= b < 256 -> 0 <= c < 256 ->
  multi_GF a b gf GF_INDEX = multi_GF b a gf GF_INDEX /\
  multi_GF (multi_GF a b gf GF_INDEX) c gf GF_INDEX =
    multi_GF a (multi_GF b c gf GF_INDEX) gf GF_INDEX /\
  multi_GF a 1 gf GF_INDEX = a /\
  multi_GF 1 a gf GF_INDEX = a.
Proof.
  intros Hgf Ha Hb Hc.
  destruct (field_modulus_offset gf Hgf) as [Hg Egf].
  assert (Hcomm : forall x y, 0 <= x < 256 -> 0 <= y < 256 ->
            multi_GF x y gf GF_INDEX = multi_GF y x gf GF_INDEX).
  { intros x y Hx. revert y.
    revert x Hx. apply (xor_basis_ind (fun x => forall y, 0 <= y < 256 ->
      multi_GF x y gf GF_INDEX = multi_GF y x gf GF_INDEX)).
    - intros y _. now rewrite multi_GF_0_l, (multi_GF_zero _ 0).
    - intros x x' Hx Hx' y Hy.
      now rewrite multi_GF_lxor_l, multi_GF_lxor_r, Hx, Hx'.
    - intros i Hi.
      apply (xor_basis_ind (fun y =>
        multi_GF (2 ^ i) y gf GF_INDEX = multi_GF y (2 ^ i) gf GF_INDEX)).
      + now rewrite multi_GF_0_l, (multi_GF_zero _ 0).
      + intros y y' Hy Hy'.
        now rewrite multi_GF_lxor_l, multi_GF_lxor_r, Hy, Hy'.
      + intros j Hj. apply Z.eqb_eq. rewrite Egf.
        exact (all_below3_spec 256 8 8 multi_GF_comm_basis_at
                 multi_GF_comm_basis (gf - 256) i j Hg Hi Hj). }
  assert (Hone : forall x, 0 <= x < 256 -> multi_GF x 1 gf GF_INDEX = x).
  { intros x Hx. unfold multi_GF. change (scan_pos 1 8) with 0.
    change (Z.to_nat (0 + 1)) with 1%nat.
    cbn [multi_GF_loop]. unfold multi_GF_body.
    change (Z.land 1 (Z.shiftl PICK1 (Z.of_nat 0)) =? 0) with false.
    change (U32.shl 0 1) with 0. rewrite Z.lxor_0_l.
    unfold PICK1, GF_INDEX. rewrite land_bit_test by lia.
    now rewrite (testbit_high x 8 8) by (change (2 ^ 8) with 256; lia). }
  split; [now apply Hcomm|]. split.
  - revert a Ha.
    apply (xor_basis_ind (fun a =>
      multi_GF (multi_GF a b gf GF_INDEX) c gf GF_INDEX =
      multi_GF a (multi_GF b c gf GF_INDEX) gf GF_INDEX)).
    + now rewrite !multi_GF_0_l.
    + intros x y Hx Hy. now rewrite !multi_GF_lxor_l, Hx, Hy.
    + intros i Hi. revert b Hb.
      apply (xor_basis_ind (fun b =>
        multi_GF (multi_GF (2 ^ i) b gf GF_INDEX) c gf GF_INDEX =
        multi_GF (2 ^ i) (multi_GF b c gf GF_INDEX) gf GF_INDEX)).
      * rewrite (multi_GF_zero _ 0) by reflexivity.
        rewrite !multi_GF_0_l. now rewrite (multi_GF_zero _ 0).
      * intros x y Hx Hy.
        now rewrite multi_GF_lxor_l, multi_GF_lxor_r, multi_GF_lxor_l,
          multi_GF_lxor_r, Hx, Hy.
      * intros j Hj. revert c Hc.
        apply (xor_basis_ind (fun c =>
          multi_GF (multi_GF (2 ^ i) (2 ^ j) gf GF_INDEX) c gf GF_INDEX =
          multi_GF (2 ^ i) (multi_GF (2 ^ j) c gf GF_INDEX) gf GF_INDEX)).
        -- now rewrite !(multi_GF_zero _ 0) by reflexivity.
        -- intros x y Hx Hy. now rewrite !multi_GF_lxor_r, Hx, Hy.
        -- intros k Hk. apply Z.eqb_eq. rewrite Egf.
           exact (all_below4_spec 256 8 8 8 multi_GF_assoc_basis_at
                    multi_GF_assoc_basis (gf - 256) i j k Hg Hi Hj Hk).
  - split; [now apply Hone|].
    rewrite Hcomm by lia. now apply Hone.
Qed.

Lemma multi_GF_ring_laws_witness :
  multi_GF 0x57 0x83 0x12D GF_INDEX = multi_GF 0x83 0x57 0x12D GF_INDEX /\
  multi_GF (multi_GF 0x57 0x83 0x12D GF_INDEX) 0x1A 0x12D GF_INDEX =
    multi_GF 0x57 (multi_GF 0x83 0x1A 0x12D GF_INDEX) 0x12D GF_INDEX /\
  multi_GF 0x57 1 0x12D GF_INDEX = 0x57 /\
  multi_GF 1 0x57 0x12D GF_INDEX = 0x57.
Proof.
  apply (multi_GF_ring_laws 0x12D 0x57 0x83 0x1A); try lia.
  split; [lia|reflexivity].
Defined.

(** X7: with the modulus [BETA_GF], a product of two values of
    [0, 256) is zero only if one of them is, and multiplication by a
    non-zero value is injective on [0, 256). *)
Theorem multi_GF_integral (a b b' : Z) :
  0 <= a < 256 -> 0 <= b < 256 -> 0 <= b' < 256 ->
  (multi_GF a b BETA_GF GF_INDEX = 0 -> a = 0 \/ b = 0) /\
  (a <> 0 ->
   multi_GF a b BETA_GF GF_INDEX = multi_GF a b' BETA_GF GF_INDEX ->
   b = b').
Proof.
  intros Ha Hb Hb'. split.
  - now apply multi_GF_no_zero_divisor.
  - now apply multi_GF_cancel_l.
Qed.

Lemma multi_GF_integral_witness :
  (multi_GF 0x1A 0x02 BETA_GF GF_INDEX = 0 -> 0x1A = 0 \/ 0x02 = 0) /\
  (0x1A <> 0 ->
   multi_GF 0x1A 0x02 BETA_GF GF_INDEX = multi_GF 0x1A 0x03 BETA_GF GF_INDEX ->
   0x02 = 0x03).
Proof. apply (multi_GF_integral 0x1A 0x02 0x03); lia. Defined.

(** ** make_coefficients: doubling is multiplication by 2 *)

Section Doubling.

Variable gf : Z.

Lemma lor_bit_odd (b : Z) :
  Z.testbit gf 0 = true -> b = 0 \/ b = 1 -> Z.lor gf b = gf.
Proof.
  intros Hodd [->| ->]; [apply Z.lor_0_r|].
  apply Z.bits_inj'. intros m Hm. rewrite Z.lor_spec.
  destruct (Z.eq_dec m 0) as [->|Hne]; [now rewrite Hodd|].
  change 1 with (2 ^ 0). rewrite Z.pow2_bits_false by lia.
  apply orb_false_r.
Qed.

Lemma coefficient_body_times_2 (m : Z) :
  Z.testbit gf 0 = true -> field_element m ->
  coefficient_body gf m = multi_GF m 2 gf GF_INDEX.
Proof.
  intros Hodd Hm. unfold coefficient_body.
  rewrite lor_bit_odd by (exact Hodd || apply lnot_bit).
  unfold multi_GF. change (scan_pos 2 8) with 1.
  change (Z.to_nat (1 + 1)) with 2%nat.
  cbn [multi_GF_loop]. unfold multi_GF_body.
  change (Z.land 2 (Z.shiftl PICK1 (Z.of_nat 1)) =? 0) with false.
  change (Z.land 2 (Z.shiftl PICK1 (Z.of_nat 0)) =? 0) with true.
  change (U32.shl 0 1) with 0. rewrite Z.lxor_0_l, Z.lxor_0_r.
  replace (Z.land m (Z.shiftl PICK1 GF_INDEX) =? 0) with true; [reflexivity|].
  unfold PICK1, GF_INDEX. rewrite land_bit_test by lia.
  now rewrite (testbit_high m 8 8) by (exact Hm || lia).
Qed.

Lemma coefficient_body_iter_times_2 (n : nat) (m : Z) :
  field_modulus gf -> Z.testbit gf 0 = true -> field_element m ->
  Nat.iter n (coefficient_body gf) m =
  Nat.iter n (fun x => multi_GF x 2 gf GF_INDEX) m.
Proof.
  intros Hgf Hodd Hm. induction n as [|n IH]; [reflexivity|].
  rewrite !Nat.iter_succ, <- IH.
  apply coefficient_body_times_2; [exact Hodd|].
  now apply coefficient_body_iter_closed.
Qed.

End Doubling.

(** X8: for a modulus of the field with bit 0 set, as [BETA_GF] has,
    the parity-conditioned OR of 1 changes nothing and one run of the
    loop body is a multiplication by 2 with [multi_GF]; so the builder
    replaces each accumulator [m], a field element, by [m * 2^e] for its
    exponent [e]. *)
Theorem make_coefficients_powers_of_2 (gf : Z) (multi index : list Z) :
  field_modulus gf -> Z.testbit gf 0 = true ->
  length multi = ALPHA_SIZE -> length index = ALPHA_SIZE ->
  Forall field_element multi ->
  Forall (fun e => 0 <= e < 2 ^ 31) index ->
  make_coefficients multi index gf =
  Some (zip_with
          (fun m e => Nat.iter (Z.to_nat e)
                        (fun x => multi_GF x 2 gf GF_INDEX) m)
          multi index).
Proof.
  intros Hgf Hodd Hm Hi Hall Hidx.
  destruct (make_coefficients_cells gf multi index)
    as (r & -> & Hr & Hk); [lia|lia|].
  f_equal. apply list_eq. intros k. rewrite Hk, lookup_zip_with.
  destruct (decide (k < ALPHA_SIZE)%nat) as [Hlt|Hge].
  - destruct (lookup_lt_is_Some_2 index k) as [e He]; [lia|].
    destruct (lookup_lt_is_Some_2 multi k) as [m Hmk]; [lia|].
    rewrite He, Hmk.
    cbn [default fmap option_fmap option_map mbind option_bind].
    pose proof (Forall_lookup_1 _ _ _ _ Hidx He) as He'. cbv beta in He'.
    pose proof (Forall_lookup_1 _ _ _ _ Hall Hmk) as Hfe.
    now rewrite trip_count_nonneg, coefficient_body_iter_times_2.
  - rewrite (lookup_ge_None_2 multi) by lia. reflexivity.
Qed.

Lemma make_coefficients_powers_of_2_witness :
  make_coefficients beta_multi_init beta_index BETA_GF =
  Some (zip_with
          (fun m e => Nat.iter (Z.to_nat e)
                        (fun x => multi_GF x 2 BETA_GF GF_INDEX) m)
          beta_multi_init beta_index).
Proof.
  apply make_coefficients_powers_of_2.
  - split; [unfold BETA_GF; lia|reflexivity].
  - reflexivity.
  - reflexivity.
  - reflexivity.
  - unfold beta_multi_init, field_element. repeat constructor; lia.
  - unfold beta_index. repeat constructor; lia.
Defined.

(** X9: the builder works in place, so two calls in a row add their
    exponents: building with [index] and then, on the result, with
    [index'] gives what one call with the sums gives, as long as each
    sum still is a non-negative [int]. *)
Theorem make_coefficients_add (gf : Z) (multi index index' r r' : list Z) :
  length multi = ALPHA_SIZE ->
  length index = ALPHA_SIZE -> length index' = ALPHA_SIZE ->
  Forall2 (fun e e' => 0 <= e /\ 0 <= e' /\ e + e' < 2 ^ 31) index index' ->
  make_coefficients multi index gf = Some r ->
  make_coefficients r index' gf = Some r' ->
  make_coefficients multi (zip_with Z.add index index') gf = Some r'.
Proof.
  intros Hm Hi Hi' Hsum Hr Hr'.
  destruct (make_coefficients_cells gf multi index)
    as (s & Hs & Hsl & Hsk); [lia|lia|].
  rewrite Hs in Hr. injection Hr as ->.
  destruct (make_coefficients_cells gf r index')
    as (s' & Hs' & Hsl' & Hsk'); [lia|lia|].
  rewrite Hs' in Hr'. injection Hr' as ->.
  destruct (make_coefficients_cells gf multi (zip_with Z.add index index'))
    as (u & -> & Hul & Huk); [lia|rewrite length_zip_with; lia|].
  f_equal. apply list_eq. intros k.
  rewrite Huk, Hsk', Hsk, lookup_zip_with.
  destruct (decide (k < ALPHA_SIZE)%nat) as [Hlt|Hge]; [|reflexivity].
  destruct (lookup_lt_is_Some_2 index k) as [e He]; [lia|].
  destruct (lookup_lt_is_Some_2 index' k) as [e' He']; [lia|].
  destruct (lookup_lt_is_Some_2 multi k) as [m Hmk]; [lia|].
  rewrite He, He', Hmk.
  cbn [default fmap option_fmap option_map mbind option_bind].
  pose proof (Forall2_lookup_lr _ _ _ _ _ _ Hsum He He') as Hee.
  cbv beta in Hee. destruct Hee as (H0 & H0' & Hlt').
  unfold id. rewrite !trip_count_nonneg by lia.
  replace (Z.to_nat (e + e')) with (Z.to_nat e' + Z.to_nat e)%nat by lia.
  now rewrite Nat.iter_add.
Qed.

Lemma make_coefficients_add_witness :
  make_coefficients beta_multi_init
    (zip_with Z.add [70; 10; 1; 20] [1; 2; 2; 4]) BETA_GF
    = Some [0x1A; 0x6D; 0x08; 0xB6].
Proof.
  apply (make_coefficients_add BETA_GF beta_multi_init
           [70; 10; 1; 20] [1; 2; 2; 4] [0x0D; 0x8A; 0x02; 0x33]);
    [reflexivity | reflexivity | reflexivity
    | repeat constructor; lia
    | vm_compute; reflexivity
    | vm_compute; reflexivity].
Defined.

(** X10: the builder writes nothing but the cells it doubles: the
    array keeps its length, the cells from index 4 on keep their
    contents, and so does a cell whose bound is 0 or is negative as an
    [int]. *)
Theorem make_coefficients_frame (gf : Z) (multi index : list Z) :
  (ALPHA_SIZE <= length multi)%nat -> (ALPHA_SIZE <= length index)%nat ->
  exists r,
    make_coefficients multi index gf = Some r /\
    length r = length multi /\
    (forall k, (ALPHA_SIZE <= k)%nat -> r !! k = multi !! k) /\
    (forall k e, index !! k = Some e ->
       e = 0 \/ 2 ^ 31 <= e < 2 ^ 32 -> r !! k = multi !! k).
Proof.
  intros Hm Hi.
  destruct (make_coefficients_cells gf multi index)
    as (r & Hrun & Hr & Hk); [lia|lia|].
  exists r. split; [exact Hrun|]. split; [exact Hr|]. split.
  - intros k Hge. rewrite Hk, decide_False by lia. reflexivity.
  - intros k e He Hcase. rewrite Hk, He. cbn [default]. unfold id.
    assert (Ht : trip_count e = 0%nat).
    { destruct Hcase as [->|Hneg]; [reflexivity|].
      now apply trip_count_negative. }
    rewrite Ht. destruct (decide (k < ALPHA_SIZE)%nat); [|reflexivity].
    now destruct (multi !! k).
Qed.

Lemma make_coefficients_frame_witness :
  exists r,
    make_coefficients [1; 1; 1; 1; 7; 9] [0; 0x80000000; 3; 24] BETA_GF
      = Some r /\
    length r = length [1; 1; 1; 1; 7; 9] /\
    (forall k, (ALPHA_SIZE <= k)%nat -> r !! k = [1; 1; 1; 1; 7; 9] !! k) /\
    (forall k e, [0; 0x80000000; 3; 24] !! k = Some e ->
       e = 0 \/ 2 ^ 31 <= e < 2 ^ 32 -> r !! k = [1; 1; 1; 1; 7; 9] !! k).
Proof. apply make_coefficients_frame; unfold ALPHA_SIZE; cbn; lia. Defined.

(** ** make_alpha_table: what a call does to the array *)

Section AlphaTableArray.

Variable gf : Z.

Lemma alpha_lane_range (multi : list Z) (i j : nat) :
  U32.in_range (alpha_lane multi gf i j).
Proof. unfold alpha_lane, U32.shl. apply wrap_range. Qed.

Lemma alpha_cell_range (multi : list Z) (i : nat) (old : Z) :
  U32.in_range old -> U32.in_range (alpha_cell multi gf i old).
Proof.
  intros Hold. unfold alpha_cell.
  repeat (apply (lor_range _ _ 32); [lia| |apply alpha_lane_range]).
  exact Hold.
Qed.

Lemma alpha_cell_idempotent (multi : list Z) (i : nat) (old : Z) :
  alpha_cell multi gf i (alpha_cell multi gf i old) =
  alpha_cell multi gf i old.
Proof.
  rewrite (alpha_cell_lor gf multi i (alpha_cell multi gf i old)).
  rewrite (alpha_cell_lor gf multi i old).
  now rewrite <- Z.lor_assoc, Z.lor_diag.
Qed.

End AlphaTableArray.

(** X11: a second call of the table builder on the array it has just
    filled changes nothing: the lanes are ORed into entries that
    already hold them. *)
Theorem make_alpha_table_idempotent (gf : Z) (alpha multi table : list Z) :
  (ALPHA_SIZE <= length multi)%nat -> (TABLE_SIZE <= length alpha)%nat ->
  make_alpha_table alpha multi gf = Some table ->
  make_alpha_table table multi gf = Some table.
Proof.
  intros Hm Ha Hrun.
  destruct (make_alpha_table_cells gf alpha multi)
    as (t & Ht & Hl & Hk); [lia|lia|].
  rewrite Ht in Hrun. injection Hrun as ->.
  destruct (make_alpha_table_cells gf table multi)
    as (t' & -> & Hl' & Hk'); [lia|lia|].
  f_equal. apply list_eq. intros k. rewrite Hk', Hk.
  destruct (decide (k < TABLE_SIZE)%nat); [|reflexivity].
  destruct (alpha !! k); [|reflexivity].
  cbn [fmap option_fmap option_map]. f_equal. apply alpha_cell_idempotent.
Qed.

Lemma make_alpha_table_idempotent_witness :
  make_alpha_table
    (default [] (make_alpha_table alpha_0_init [0x1A; 0x6D; 0x08; 0xB6] BETA_GF))
    [0x1A; 0x6D; 0x08; 0xB6] BETA_GF
  = Some
      (default [] (make_alpha_table alpha_0_init [0x1A; 0x6D; 0x08; 0xB6] BETA_GF)).
Proof.
  apply (make_alpha_table_idempotent BETA_GF alpha_0_init).
  - unfold ALPHA_SIZE. cbn. lia.
  - rewrite alpha_0_init_length. lia.
  - vm_compute. reflexivity.
Defined.

(** X12: the table builder keeps the array a table of 32-bit words and
    writes only its 256 first entries: the length is kept, entries that
    are 32-bit words stay so, and the entries from index 256 on keep
    their contents. *)
Theorem make_alpha_table_words (gf : Z) (alpha multi : list Z) :
  (ALPHA_SIZE <= length multi)%nat -> (TABLE_SIZE <= length alpha)%nat ->
  Forall U32.in_range alpha ->
  exists table,
    make_alpha_table alpha multi gf = Some table /\
    length table = length alpha /\
    Forall U32.in_range table /\
    forall k, (TABLE_SIZE <= k)%nat -> table !! k = alpha !! k.
Proof.
  intros Hm Ha Hall.
  destruct (make_alpha_table_cells gf alpha multi)
    as (t & Ht & Hl & Hk); [lia|lia|].
  exists t. split; [exact Ht|]. split; [exact Hl|]. split.
  - apply Forall_lookup. intros k x Hx. rewrite Hk in Hx.
    destruct (decide (k < TABLE_SIZE)%nat).
    + destruct (alpha !! k) as [old|] eqn:Hold; [|discriminate Hx].
      injection Hx as <-. apply alpha_cell_range.
      exact (Forall_lookup_1 _ _ _ _ Hall Hold).
    + exact (Forall_lookup_1 _ _ _ _ Hall Hx).
  - intros k Hge. rewrite Hk, decide_False by lia. reflexivity.
Qed.

Lemma make_alpha_table_words_witness :
  exists table,
    make_alpha_table (replicate 258 0xFFFF) [0x1A; 0x6D; 0x08; 0xB6] BETA_GF
      = Some table /\
    length table = length (replicate 258 0xFFFF) /\
    Forall U32.in_range table /\
    forall k, (TABLE_SIZE <= k)%nat -> table !! k = replicate 258 0xFFFF !! k.
Proof.
  apply make_alpha_table_words.
  - unfold ALPHA_SIZE. cbn. lia.
  - rewrite length_replicate. unfold TABLE_SIZE. lia.
  - apply Forall_replicate. unfold U32.in_range, U32.modulus. lia.
Defined.

(** ** The alpha table as a linear map *)

Section PackedLanes.

Lemma field_element_lxor (p q : Z) :
  field_element p -> field_element q -> field_element (Z.lxor p q).
Proof. intros Hp Hq. apply (lxor_range p q 8); (lia || assumption). Qed.

Lemma pack_lxor (p0 p1 p2 p3 q0 q1 q2 q3 : Z) :
  field_element p0 -> field_element p1 ->
  field_element p2 -> field_element p3 ->
  field_element q0 -> field_element q1 ->
  field_element q2 -> field_element q3 ->
  pack_lanes (Z.lxor p0 q0) (Z.lxor p1 q1) (Z.lxor p2 q2) (Z.lxor p3 q3) =
  Z.lxor (pack_lanes p0 p1 p2 p3) (pack_lanes q0 q1 q2 q3).
Proof.
  intros Hp0 Hp1 Hp2 Hp3 Hq0 Hq1 Hq2 Hq3. unfold pack_lanes.
  apply Z.bits_inj'. intros m Hm.
  rewrite Z.lxor_spec, !Z.lor_spec, Z.bits_0.
  rewrite !lane_testbit by (try apply field_element_lxor; assumption || lia).
  rewrite !Z.lxor_spec.
  repeat match goal with
         | |- context [?a <=? ?b] => destruct (Z.leb_spec a b); try lia
         | |- context [?a <? ?b] => destruct (Z.ltb_spec a b); try lia
         end;
    cbn [andb orb xorb]; rewrite ?orb_false_r; reflexivity.
Qed.

Variable gf : Z.
Hypothesis Hgf : field_modulus gf.

Lemma packed_entry_pack (m0 m1 m2 m3 i : Z) :
  packed_entry [m0; m1; m2; m3] gf i =
  pack_lanes (multi_GF m0 i gf GF_INDEX) (multi_GF m1 i gf GF_INDEX)
       (multi_GF m2 i gf GF_INDEX) (multi_GF m3 i gf GF_INDEX).
Proof. reflexivity. Qed.

Lemma packed_entry_lxor (m0 m1 m2 m3 x y : Z) :
  field_element m0 -> field_element m1 ->
  field_element m2 -> field_element m3 ->
  packed_entry [m0; m1; m2; m3] gf (Z.lxor x y) =
  Z.lxor (packed_entry [m0; m1; m2; m3] gf x)
         (packed_entry [m0; m1; m2; m3] gf y).
Proof.
  intros H0 H1 H2 H3.
  rewrite !packed_entry_pack, !multi_GF_lxor_r.
  apply pack_lxor; now apply multi_GF_closed.
Qed.

Lemma packed_entry_lane (m0 m1 m2 m3 i : Z) (j : nat) (m : Z) :
  field_element m0 -> field_element m1 ->
  field_element m2 -> field_element m3 ->
  [m0; m1; m2; m3] !! j = Some m ->
  byte_lane j (packed_entry [m0; m1; m2; m3] gf i) =
  multi_GF m i gf GF_INDEX.
Proof.
  intros H0 H1 H2 H3 Hj. rewrite packed_entry_pack.
  apply byte_lane_packed; try (now apply multi_GF_closed).
  destruct j as [|[|[|[|j]]]]; cbn [lookup list_lookup] in Hj |- *;
    try discriminate Hj; injection Hj as <-; reflexivity.
Qed.

(** The entries of the table built on the zeroed array. *)
Lemma alpha_table_entries (m0 m1 m2 m3 : Z) (table : list Z) :
  field_element m0 -> field_element m1 ->
  field_element m2 -> field_element m3 ->
  make_alpha_table alpha_0_init [m0; m1; m2; m3] gf = Some table ->
  forall i, (i < TABLE_SIZE)%nat ->
    table !! i = Some (packed_entry [m0; m1; m2; m3] gf (Z.of_nat i)).
Proof.
  intros H0 H1 H2 H3 Hrun i Hi.
  destruct (make_alpha_table_cells gf alpha_0_init [m0; m1; m2; m3])
    as (t & Ht & _ & Hk);
    [unfold ALPHA_SIZE; cbn; lia|rewrite alpha_0_init_length; lia|].
  rewrite Ht in Hrun. injection Hrun as ->.
  rewrite Hk, decide_True, alpha_0_init_lookup by exact Hi.
  cbn [fmap option_fmap option_map]. f_equal.
  now apply alpha_cell_packed.
Qed.

End PackedLanes.

(** X13: the table built on the zeroed array is linear in its index:
    entry 0 is 0 and the entry at [x XOR y] is the XOR of the entries at
    [x] and at [y], for field elements as multipliers and a modulus of
    the field. *)
Theorem alpha_table_linear (gf : Z) (multi table : list Z) (x y : Z) :
  field_modulus gf ->
  length multi = ALPHA_SIZE -> Forall field_element multi ->
  make_alpha_table alpha_0_init multi gf = Some table ->
  0 <= x < 256 -> 0 <= y < 256 ->
  table !! 0%nat = Some 0 /\
  exists wx wy,
    table !! Z.to_nat x = Some wx /\
    table !! Z.to_nat y = Some wy /\
    table !! Z.to_nat (Z.lxor x y) = Some (Z.lxor wx wy).
Proof.
  intros Hgf Hlen Hall Hrun Hx Hy.
  destruct multi as [|m0 [|m1 [|m2 [|m3 [|]]]]]; try discriminate Hlen.
  apply Forall_cons in Hall as [H0 Hall].
  apply Forall_cons in Hall as [H1 Hall].
  apply Forall_cons in Hall as [H2 Hall].
  apply Forall_cons in Hall as [H3 _].
  pose proof (alpha_table_entries gf Hgf m0 m1 m2 m3 table H0 H1 H2 H3 Hrun)
    as Hent.
  assert (Hxy : 0 <= Z.lxor x y < 256) by now apply field_element_lxor.
  split.
  - rewrite (Hent 0%nat) by (unfold TABLE_SIZE; lia). reflexivity.
  - exists (packed_entry [m0; m1; m2; m3] gf x),
           (packed_entry [m0; m1; m2; m3] gf y).
    rewrite !Hent by (unfold TABLE_SIZE; lia).
    rewrite !Z2Nat.id by lia.
    rewrite packed_entry_lxor by assumption. repeat split; reflexivity.
Qed.

Lemma alpha_table_linear_witness :
  default [] (make_alpha_table alpha_0_init [0x1A; 0x6D; 0x08; 0xB6] BETA_GF)
    !! 0%nat = Some 0 /\
  exists wx wy,
    default [] (make_alpha_table alpha_0_init [0x1A; 0x6D; 0x08; 0xB6] BETA_GF)
      !! Z.to_nat 0x35 = Some wx /\
    default [] (make_alpha_table alpha_0_init [0x1A; 0x6D; 0x08; 0xB6] BETA_GF)
      !! Z.to_nat 0xC2 = Some wy /\
    default [] (make_alpha_table alpha_0_init [0x1A; 0x6D; 0x08; 0xB6] BETA_GF)
      !! Z.to_nat (Z.lxor 0x35 0xC2) = Some (Z.lxor wx wy).
Proof.
  apply (alpha_table_linear BETA_GF [0x1A; 0x6D; 0x08; 0xB6]).
  - split; [unfold BETA_GF; lia|reflexivity].
  - reflexivity.
  - unfold field_element. repeat constructor; lia.
  - vm_compute. reflexivity.
  - lia.
  - lia.
Defined.

(** ** update_fsr: running the register *)

Section Register.

Lemma update_fsr_eval (A B C D E : Z) (rest alpha : list Z) (entry : Z) :
  alpha !! Z.to_nat (U32.shr A 24) = Some entry ->
  update_fsr (A :: B :: C :: D :: E :: rest) alpha =
  Some (B :: C :: D :: E :: Z.lxor (Z.lxor (U32.shl A 8) entry) D :: rest).
Proof.
  intros He. unfold update_fsr.
  cbn [lookup list_lookup mbind option_bind]. rewrite He.
  cbn [mbind option_bind].
  repeat (rewrite store_Some by (cbn [length]; lia);
          cbn [mbind option_bind lookup list_lookup insert list_insert]).
  reflexivity.
Qed.

Lemma update_fsr_short (fsr alpha : list Z) :
  (length fsr < 5)%nat -> update_fsr fsr alpha = None.
Proof.
  intros Hlen. unfold update_fsr.
  destruct fsr as [|A [|B [|C [|D [|E rest]]]]];
    cbn [length] in Hlen; try lia;
    cbn [lookup list_lookup mbind option_bind]; try reflexivity;
    (destruct (alpha !! _); [|reflexivity]);
    cbn [mbind option_bind lookup list_lookup]; reflexivity.
Qed.

Lemma feedback_range (A entry D : Z) :
  U32.in_range entry -> U32.in_range D ->
  U32.in_range (Z.lxor (Z.lxor (U32.shl A 8) entry) D).
Proof.
  intros He HD.
  apply (lxor_range _ _ 32); [lia| |exact HD].
  apply (lxor_range _ _ 32); [lia| |exact He].
  apply wrap_range.
Qed.

Lemma update_fsr_words (fsr alpha : list Z) :
  length alpha = TABLE_SIZE -> Forall U32.in_range alpha ->
  length fsr = FSR_A_SIZE -> Forall U32.in_range fsr ->
  exists fsr',
    update_fsr fsr alpha = Some fsr' /\
    length fsr' = FSR_A_SIZE /\ Forall U32.in_range fsr'.
Proof.
  intros Hal Hall Hlen Hfsr.
  destruct fsr as [|A [|B [|C [|D [|E [|]]]]]]; try discriminate Hlen.
  apply Forall_cons in Hfsr as [HA Hfsr].
  apply Forall_cons in Hfsr as [HB Hfsr].
  apply Forall_cons in Hfsr as [HC Hfsr].
  apply Forall_cons in Hfsr as [HD Hfsr].
  apply Forall_cons in Hfsr as [HE _].
  destruct (lookup_lt_is_Some_2 alpha (Z.to_nat (U32.shr A 24)))
    as [entry He].
  { rewrite Hal. unfold TABLE_SIZE. pose proof (shr_24_range A HA). lia. }
  rewrite (update_fsr_eval A B C D E [] alpha entry He).
  eexists. split; [reflexivity|]. split; [reflexivity|].
  repeat (apply Forall_cons; split; [assumption|]).
  apply Forall_cons. split; [|apply Forall_nil_2].
  apply feedback_range; [|exact HD].
  exact (Forall_lookup_1 _ _ _ _ Hall He).
Qed.

End Register.

Lemma update_fsr_loop_words (alpha seed : list Z) (loop : nat) :
  length alpha = TABLE_SIZE -> Forall U32.in_range alpha ->
  length seed = FSR_A_SIZE -> Forall U32.in_range seed ->
  exists fsr,
    for_up loop 0 (fun _ fsr => update_fsr fsr alpha) seed = Some fsr /\
    length fsr = FSR_A_SIZE /\ Forall U32.in_range fsr.
Proof.
  intros Hal Hall. generalize 0%nat. revert seed.
  induction loop as [|loop IH]; intros seed i0 Hlen Hseed.
  - exists seed. repeat split; assumption.
  - destruct (update_fsr_words seed alpha Hal Hall Hlen Hseed)
      as (fsr' & Hstep & Hlen' & Hws).
    cbn [for_up]. rewrite Hstep. now apply IH.
Qed.

(** X14: the stepping loop of [main] never leaves the arrays: with a
    table of 256 32-bit words, any state of five 32-bit words can be
    updated any number of times, and is still five 32-bit words
    afterwards. *)
Theorem update_fsr_run (alpha seed : list Z) (loop : nat) :
  length alpha = TABLE_SIZE -> Forall U32.in_range alpha ->
  length seed = FSR_A_SIZE -> Forall U32.in_range seed ->
  exists fsr,
    for_up loop 0 (fun _ fsr => update_fsr fsr alpha) seed = Some fsr /\
    length fsr = FSR_A_SIZE /\ Forall U32.in_range fsr.
Proof. apply update_fsr_loop_words. Qed.

Lemma update_fsr_run_witness :
  exists fsr,
    for_up LOOP_A 0
      (fun _ fsr => update_fsr fsr (replicate TABLE_SIZE 0xB6086D1A))
      fsr_a_init = Some fsr /\
    length fsr = FSR_A_SIZE /\ Forall U32.in_range fsr.
Proof.
  apply update_fsr_run.
  - apply length_replicate.
  - apply Forall_replicate. unfold U32.in_range, U32.modulus. lia.
  - reflexivity.
  - unfold fsr_a_init, U32.in_range, U32.modulus. repeat constructor; lia.
Defined.

(** X15: [update_fsr] is defined exactly when the state has at least
    five words and the top byte of its first word indexes inside the
    table; a shorter state or a shorter table is an access outside the
    array. *)
Theorem update_fsr_defined (fsr alpha : list Z) :
  is_Some (update_fsr fsr alpha) <->
  (5 <= length fsr)%nat /\
  exists f0, fsr !! 0%nat = Some f0 /\
             (Z.to_nat (Z.shiftr f0 24) < length alpha)%nat.
Proof.
  split.
  - intros Hs.
    destruct (Nat.lt_ge_cases (length fsr) 5) as [Hlt|Hge].
    { rewrite update_fsr_short in Hs by exact Hlt.
      destruct Hs as [? Hs]. discriminate Hs. }
    split; [exact Hge|].
    destruct fsr as [|A [|B [|C [|D [|E rest]]]]];
      cbn [length] in Hge; try lia.
    exists A. split; [reflexivity|].
    apply lookup_lt_is_Some_1.
    unfold update_fsr in Hs.
    cbn [lookup list_lookup mbind option_bind] in Hs.
    unfold U32.shr in Hs.
    destruct (alpha !! Z.to_nat (Z.shiftr A 24)) as [entry|]; [eauto|].
    destruct Hs as [? Hs]. discriminate Hs.
  - intros (Hge & f0 & Hf0 & Hidx).
    destruct fsr as [|A [|B [|C [|D [|E rest]]]]];
      cbn [length] in Hge; try lia.
    injection Hf0 as ->.
    destruct (lookup_lt_is_Some_2 alpha _ Hidx) as [entry He].
    rewrite (update_fsr_eval f0 B C D E rest alpha entry He). eauto.
Qed.

(** ** update_fsr loses no state *)

Section Injective.

Lemma shl_8_low_bits (A m : Z) :
  0 <= m < 8 -> Z.testbit (U32.shl A 8) m = false.
Proof.
  intros Hm. unfold U32.shl, U32.wrap, U32.modulus.
  rewrite Z.testbit_mod_pow2 by lia.
  rewrite Z.shiftl_spec_low by lia. apply andb_false_r.
Qed.

Lemma byte_lane_0_feedback (A w : Z) :
  byte_lane 0 (Z.lxor (U32.shl A 8) w) = byte_lane 0 w.
Proof.
  unfold byte_lane. change (8 * Z.of_nat 0) with 0.
  rewrite !Z.shiftr_0_r. change 0xFF with (Z.ones 8).
  rewrite !Z.land_ones by lia.
  apply Z.bits_inj'. intros m Hm.
  rewrite !Z.testbit_mod_pow2, Z.lxor_spec by lia.
  destruct (Z.ltb_spec m 8); cbn [andb]; [|reflexivity].
  now rewrite shl_8_low_bits by lia.
Qed.

(** A 32-bit word is known from its top byte and its 24 low bits. *)
Lemma word_of_parts (A A' : Z) :
  U32.in_range A -> U32.in_range A' ->
  U32.shr A 24 = U32.shr A' 24 -> U32.shl A 8 = U32.shl A' 8 -> A = A'.
Proof.
  unfold U32.in_range, U32.shr, U32.shl, U32.wrap, U32.modulus.
  intros HA HA' Htop Hlow.
  apply Z.bits_inj'. intros m Hm.
  destruct (Z.lt_ge_cases m 24) as [Hlt|Hge].
  - assert (H : Z.testbit (Z.shiftl A 8 mod 2 ^ 32) (m + 8) =
                Z.testbit (Z.shiftl A' 8 mod 2 ^ 32) (m + 8))
      by now rewrite Hlow.
    rewrite !Z.mod_pow2_bits_low, !Z.shiftl_spec in H by lia.
    now replace (m + 8 - 8) with m in H by lia.
  - assert (H : Z.testbit (Z.shiftr A 24) (m - 24) =
                Z.testbit (Z.shiftr A' 24) (m - 24))
      by now rewrite Htop.
    rewrite !Z.shiftr_spec in H by lia.
    now replace (m - 24 + 24) with m in H by lia.
Qed.

Lemma lxor_cancel_r (x y d : Z) : Z.lxor x d = Z.lxor y d -> x = y.
Proof.
  intros H.
  rewrite <- (Z.lxor_0_r x), <- (Z.lxor_0_r y), <- (Z.lxor_nilpotent d).
  now rewrite <- !Z.lxor_assoc, H.
Qed.

Lemma lxor_cancel_l (x y d : Z) : Z.lxor d x = Z.lxor d y -> x = y.
Proof. rewrite !(Z.lxor_comm d). apply lxor_cancel_r. Qed.

End Injective.

(** X16: with the table built on the zeroed array for the modulus
    [BETA_GF] and field elements of which the first is not zero, the
    register update is injective on the states of five 32-bit words:
    two states with the same successor are equal. *)
Theorem update_fsr_injective (multi table s s' r : list Z) :
  length multi = ALPHA_SIZE -> Forall field_element multi ->
  multi !! 0%nat <> Some 0 ->
  make_alpha_table alpha_0_init multi BETA_GF = Some table ->
  length s = FSR_A_SIZE -> Forall U32.in_range s ->
  length s' = FSR_A_SIZE -> Forall U32.in_range s' ->
  update_fsr s table = Some r -> update_fsr s' table = Some r ->
  s = s'.
Proof.
  intros Hlen Hall Hnz Hrun Hs Hws Hs' Hws' Hr Hr'.
  destruct multi as [|m0 [|m1 [|m2 [|m3 [|]]]]]; try discriminate Hlen.
  apply Forall_cons in Hall as [H0 Hall].
  apply Forall_cons in Hall as [H1 Hall].
  apply Forall_cons in Hall as [H2 Hall].
  apply Forall_cons in Hall as [H3 _].
  assert (Hm0 : m0 <> 0) by (intros ->; now apply Hnz).
  pose proof (alpha_table_entries BETA_GF field_modulus_BETA_GF
                m0 m1 m2 m3 table H0 H1 H2 H3 Hrun) as Hent.
  destruct s as [|A [|B [|C [|D [|E [|]]]]]]; try discriminate Hs.
  destruct s' as [|A' [|B' [|C' [|D' [|E' [|]]]]]]; try discriminate Hs'.
  apply Forall_cons in Hws as [HA _].
  apply Forall_cons in Hws' as [HA' _].
  pose proof (shr_24_range A HA) as Ha.
  pose proof (shr_24_range A' HA') as Ha'.
  rewrite (update_fsr_eval A B C D E [] table _
             (Hent (Z.to_nat (U32.shr A 24)) ltac:(unfold TABLE_SIZE; lia)))
    in Hr.
  rewrite (update_fsr_eval A' B' C' D' E' [] table _
             (Hent (Z.to_nat (U32.shr A' 24)) ltac:(unfold TABLE_SIZE; lia)))
    in Hr'.
  rewrite !Z2Nat.id in Hr, Hr' by lia.
  rewrite <- Hr in Hr'. clear Hr.
  injection Hr' as HB HC HD HE HF. subst B' C' D' E'.
  apply lxor_cancel_r in HF.
  assert (Htop : U32.shr A' 24 = U32.shr A 24).
  { apply (multi_GF_cancel_l m0); try assumption.
    rewrite <- (packed_entry_lane BETA_GF field_modulus_BETA_GF
                  m0 m1 m2 m3 (U32.shr A' 24) 0 m0) by auto.
    rewrite <- (packed_entry_lane BETA_GF field_modulus_BETA_GF
                  m0 m1 m2 m3 (U32.shr A 24) 0 m0) by auto.
    rewrite <- (byte_lane_0_feedback A'
                  (packed_entry [m0; m1; m2; m3] BETA_GF (U32.shr A' 24))).
    rewrite HF. apply byte_lane_0_feedback. }
  rewrite Htop in HF. apply lxor_cancel_r in HF.
  f_equal. symmetry. now apply word_of_parts.
Qed.

Lemma update_fsr_injective_witness :
  [0xBE3CA984; 0x974E6719; 0x86916EFF; 0xF52DACF9; 0x960329B5] =
  [0xBE3CA984; 0x974E6719; 0x86916EFF; 0xF52DACF9; 0x960329B5].
Proof.
  apply (update_fsr_injective [0x1A; 0x6D; 0x08; 0xB6]
           (default []
              (make_alpha_table alpha_0_init [0x1A; 0x6D; 0x08; 0xB6] BETA_GF))
           _ _
           [0x974E6719; 0x86916EFF; 0xF52DACF9; 0x960329B5; 0x1A3DB24E]).
  - reflexivity.
  - unfold field_element. repeat constructor; lia.
  - discriminate.
  - vm_compute. reflexivity.
  - reflexivity.
  - unfold U32.in_range, U32.modulus. repeat constructor; lia.
  - reflexivity.
  - unfold U32.in_range, U32.modulus. repeat constructor; lia.
  - vm_compute. reflexivity.
  - vm_compute. reflexivity.
Defined.

(** ** The register update as a linear map *)

(** X17: with the table built on the zeroed array from field elements
    and a modulus of the field, the register update is linear over XOR
    on the states of five 32-bit words: the successor of the word-wise
    XOR of two states is the word-wise XOR of their successors. *)
Theorem update_fsr_linear (gf : Z) (multi table s s' r r' : list Z) :
  field_modulus gf ->
  length multi = ALPHA_SIZE -> Forall field_element multi ->
  make_alpha_table alpha_0_init multi gf = Some table ->
  length s = FSR_A_SIZE -> Forall U32.in_range s ->
  length s' = FSR_A_SIZE -> Forall U32.in_range s' ->
  update_fsr s table = Some r -> update_fsr s' table = Some r' ->
  update_fsr (zip_with Z.lxor s s') table = Some (zip_with Z.lxor r r').
Proof.
  intros Hgf Hlen Hall Hrun Hs Hws Hs' Hws' Hr Hr'.
  destruct multi as [|m0 [|m1 [|m2 [|m3 [|]]]]]; try discriminate Hlen.
  apply Forall_cons in Hall as [H0 Hall].
  apply Forall_cons in Hall as [H1 Hall].
  apply Forall_cons in Hall as [H2 Hall].
  apply Forall_cons in Hall as [H3 _].
  pose proof (alpha_table_entries gf Hgf m0 m1 m2 m3 table H0 H1 H2 H3 Hrun)
    as Hent.
  destruct s as [|A [|B [|C [|D [|E [|]]]]]]; try discriminate Hs.
  destruct s' as [|A' [|B' [|C' [|D' [|E' [|]]]]]]; try discriminate Hs'.
  apply Forall_cons in Hws as [HA _].
  apply Forall_cons in Hws' as [HA' _].
  assert (HAA : U32.in_range (Z.lxor A A'))
    by (apply (lxor_range A A' 32); (lia || assumption)).
  pose proof (shr_24_range A HA) as Ha.
  pose proof (shr_24_range A' HA') as Ha'.
  pose proof (shr_24_range _ HAA) as Haa.
  rewrite (update_fsr_eval A B C D E [] table _
             (Hent (Z.to_nat (U32.shr A 24)) ltac:(unfold TABLE_SIZE; lia)))
    in Hr.
  rewrite (update_fsr_eval A' B' C' D' E' [] table _
             (Hent (Z.to_nat (U32.shr A' 24)) ltac:(unfold TABLE_SIZE; lia)))
    in Hr'.
  injection Hr as <-. injection Hr' as <-.
  cbn [zip_with].
  rewrite (update_fsr_eval _ _ _ _ _ [] table _
             (Hent (Z.to_nat (U32.shr (Z.lxor A A') 24))
                ltac:(unfold TABLE_SIZE; lia))).
  rewrite !Z2Nat.id by lia.
  do 5 f_equal.
  rewrite shl_lxor. unfold U32.shr. rewrite Z.shiftr_lxor.
  rewrite packed_entry_lxor by assumption.
  rewrite (lxor_swap (U32.shl A 8)). f_equal. apply lxor_swap.
Qed.

Lemma update_fsr_linear_witness :
  update_fsr
    (zip_with Z.lxor
       [0xBE3CA984; 0x974E6719; 0x86916EFF; 0xF52DACF9; 0x960329B5]
       [0x01000000; 0; 0; 0; 0])
    (default []
       (make_alpha_table alpha_0_init [0x1A; 0x6D; 0x08; 0xB6] BETA_GF))
  = Some
      (zip_with Z.lxor
         [0x974E6719; 0x86916EFF; 0xF52DACF9; 0x960329B5; 0x1A3DB24E]
         [0; 0; 0; 0; 0xB6086D1A]).
Proof.
  apply (update_fsr_linear BETA_GF [0x1A; 0x6D; 0x08; 0xB6]).
  - split; [unfold BETA_GF; lia|reflexivity].
  - reflexivity.
  - unfold field_element. repeat constructor; lia.
  - vm_compute. reflexivity.
  - reflexivity.
  - unfold U32.in_range, U32.modulus. repeat constructor; lia.
  - reflexivity.
  - unfold U32.in_range, U32.modulus. repeat constructor; lia.
  - vm_compute. reflexivity.
  - vm_compute. reflexivity.
Defined.

(** ** The whole run of main *)

(** X18: the run of [main] stays inside its arrays for every choice of
    its constants: whatever the four exponents, the modulus, the seed of
    five 32-bit words and the number of updates, the builder, the table
    builder on the zeroed array and the updates all succeed, and the
    final state is five 32-bit words. *)
Theorem main_stays_in_bounds (index seed : list Z) (gf : Z) (loop : nat) :
  length index = ALPHA_SIZE ->
  length seed = FSR_A_SIZE -> Forall U32.in_range seed ->
  exists beta_multi alpha_0 fsr,
    make_coefficients beta_multi_init index gf = Some beta_multi /\
    make_alpha_table alpha_0_init beta_multi gf = Some alpha_0 /\
    for_up loop 0 (fun _ fsr => update_fsr fsr alpha_0) seed = Some fsr /\
    length fsr = FSR_A_SIZE /\ Forall U32.in_range fsr.
Proof.
  intros Hi Hs Hseed.
  destruct (make_coefficients_cells gf beta_multi_init index)
    as (bm & Hbm & Hbl & _); [rewrite beta_multi_init_length; lia|lia|].
  destruct (make_alpha_table_cells gf alpha_0_init bm)
    as (t & Ht & Hl & Hk);
    [rewrite Hbl, beta_multi_init_length; lia
    |rewrite alpha_0_init_length; lia|].
  assert (Hwords : Forall U32.in_range t).
  { apply Forall_lookup. intros k x Hx.
    pose proof (lookup_lt_Some _ _ _ Hx) as Hlt.
    rewrite Hk in Hx. rewrite Hl, alpha_0_init_length in Hlt.
    rewrite decide_True, alpha_0_init_lookup in Hx by exact Hlt.
    injection Hx as <-. apply alpha_cell_range.
    unfold U32.in_range, U32.modulus. lia. }
  assert (Hlt : length t = TABLE_SIZE) by now rewrite Hl, alpha_0_init_length.
  destruct (update_fsr_loop_words t seed loop Hlt Hwords Hs Hseed) as (fsr & Hrun & Hfl & Hfw).
  exists bm, t, fsr. repeat split; assumption.
Qed.

Lemma main_stays_in_bounds_witness :
  exists beta_multi alpha_0 fsr,
    make_coefficients beta_multi_init beta_index BETA_GF = Some beta_multi /\
    make_alpha_table alpha_0_init beta_multi BETA_GF = Some alpha_0 /\
    for_up LOOP_A 0 (fun _ fsr => update_fsr fsr alpha_0) fsr_a_init
      = Some fsr /\
    length fsr = FSR_A_SIZE /\ Forall U32.in_range fsr.
Proof.
  apply main_stays_in_bounds.
  - reflexivity.
  - reflexivity.
  - unfold fsr_a_init, U32.in_range, U32.modulus. repeat constructor; lia.
Defined.
